(** * Branch-and-bound route planner: [det_path_planning]

    A shallow embedding of
    [bluesky_gym/envs/common/deterministic_path_planning.py].

    The search driver is translated statement by statement.  The module
    [tools_deterministic_path_planning] it imports ([Pos], [Obs], [Route],
    [parse], [LatLon2XY], ...) is an interface here: the driver is written
    against the class [Tools], and every statement proved about the driver
    holds for every implementation of that interface.

    The module [Descend] embeds the reward of
    [bluesky_gym/envs/descend_env.py] over binary64 floats. *)

From Stdlib Require Import ZArith QArith Qabs Lia Floats.
From stdpp Require Import base list relations.

Local Open Scope Z_scope.

(** ** Exceptions and outcomes *)

(** The Python exceptions the driver can raise itself.
    [ImpossibleToFindRoute] is [Exception("Impossible to find a route")]. *)
Inductive exn : Type :=
| IndexError
| KeyError
| ValueError
| AttributeError
| ZeroDivisionError
| ImpossibleToFindRoute.

(** A computation returns, raises, or is cut off by the loop budget. *)
Inductive outcome (A : Type) : Type :=
| Done (a : A)
| Raise (e : exn)
| Timeout.
Arguments Done {A} a.
Arguments Raise {A} e.
Arguments Timeout {A}.

#[global] Instance outcome_ret : MRet outcome := fun A a => Done a.
#[global] Instance outcome_bind : MBind outcome := fun A B f m =>
  match m with
  | Done a => f a
  | Raise e => Raise e
  | Timeout => Timeout
  end.

Definition of_option {A : Type} (e : exn) (o : option A) : outcome A :=
  match o with
  | Some a => Done a
  | None => Raise e
  end.

Fixpoint foldlM {A B : Type} (f : A -> B -> outcome A) (acc : A) (l : list B)
  : outcome A :=
  match l with
  | [] => Done acc
  | x :: xs => acc' ← f acc x; foldlM f acc' xs
  end.

(** [raises_in S m]: every exception [m] can raise satisfies [S]. *)
Definition raises_in {B : Type} (S : exn -> Prop) (m : outcome B) : Prop :=
  forall e, m = Raise e -> S e.

(** Two computations end alike: both return, with related values, or both
    raise the same exception. *)
Definition orel {X Y : Type} (R : X -> Y -> Prop)
    (m1 : outcome X) (m2 : outcome Y) : Prop :=
  match m1, m2 with
  | Done a, Done b => R a b
  | Raise e, Raise e' => e = e'
  | Timeout, Timeout => True
  | _, _ => False
  end.

(** ** Python list primitives *)

(** [l[i]] for a Python int [i]: negative indices count from the end. *)
Definition py_nth {A : Type} (l : list A) (i : Z) : outcome A :=
  let n := Z.of_nat (length l) in
  if i <? 0
  then if i + n <? 0 then Raise IndexError
       else of_option IndexError (l !! Z.to_nat (i + n))
  else of_option IndexError (l !! Z.to_nat i).

(** One turn of [min]: [item] replaces [best] when [item < best]. *)
Definition step_min {A : Type} (lt : A -> A -> bool) (best item : A) : A :=
  if lt item best then item else best.

(** [min(l)]: the first element that no later element is [<] than. *)
Definition py_min {A : Type} (lt : A -> A -> bool) (l : list A) : outcome A :=
  match l with
  | [] => Raise ValueError
  | x :: xs => Done (fold_left (step_min lt) xs x)
  end.

(** The running minimum of [ss] below [best], element by element. *)
Fixpoint running {A : Type} (lt : A -> A -> bool) (best : A) (ss : list A)
  : list A :=
  match ss with
  | [] => []
  | s :: ss' => step_min lt best s :: running lt (step_min lt best s) ss'
  end.

(** [l.index(x)]: the first position whose element is [== x] (Python also
    accepts the identical object, which differs from [==] for NaN only). *)
Fixpoint py_index {A B : Type} (eq : A -> B -> bool) (x : B) (l : list A)
  : outcome nat :=
  match l with
  | [] => Raise ValueError
  | y :: ys => if eq y x then Done O else i ← py_index eq x ys; Done (S i)
  end.

(** [l.count(x)]. *)
Definition py_count {A B : Type} (eq : A -> B -> bool) (x : B) (l : list A) : Z :=
  Z.of_nat (length (filter (fun y => eq y x = true) l)).

(** [l[-1] = x]. *)
Definition py_set_last {A : Type} (l : list A) (x : A) : outcome (list A) :=
  match l with
  | [] => Raise IndexError
  | _ :: _ => Done (<[pred (length l) := x]> l)
  end.

(** [l.pop()] *)
Definition py_pop_last {A : Type} (l : list A) : outcome (A * list A) :=
  match last l with
  | None => Raise IndexError
  | Some x => Done (x, removelast l)
  end.

(** [l.pop(i)] for an in-range position [i]. *)
Definition py_pop_at {A : Type} (l : list A) (i : nat) : outcome (A * list A) :=
  match l !! i with
  | None => Raise IndexError
  | Some x => Done (x, delete i l)
  end.

(** ** The interface of [tools_deterministic_path_planning] *)

(** Carrier types: [F] stands for Python floats, [Pos] for the class [Pos],
    [ObsT] for instances of [Obs], [Wind] for what [specifywindfield]
    returns. *)
Class Carrier : Type := {
  F : Type;
  Pos : Type;
  ObsT : Type;
  Wind : Type
}.

(** Planar waypoints and geographic coordinates are 2-tuples of floats. *)
Definition Pt `{Carrier} : Type := (F * F)%type.

(** Modelled from the spec: the class [Route] is not part of the sources at
    hand.  "An ordered sequence of waypoints ... plus: cumulative distance,
    cumulative time, and deviation"; "Routes are never mutated after being
    placed in the open set except during the detour-construction phase
    before insertion into the open set"; "each Route is a self-contained
    copy of its parent's waypoint sequence".  A route is therefore a value:
    [Route(origin, destination, TAS, waypoints, distance, time, deviation)]
    stores its seven arguments and has no other effect, and a method that
    updates the object returns the updated value.  Routes enter
    [Route.active] where the driver puts them (lines 157, 405 and 426). *)
Record Route `{Carrier} : Type := mkRoute {
  origin : Pos;
  destination : Pos;
  TAS : F;
  waypoints : list Pt;
  distance : F;
  time : F;
  deviation : F
}.
Arguments mkRoute {_} origin destination TAS waypoints distance time deviation.

Definition set_deviation `{Carrier} (r : Route) (d : F) : Route :=
  {| origin := origin r; destination := destination r; TAS := TAS r;
     waypoints := waypoints r; distance := distance r; time := time r;
     deviation := d |}.

(** Float arithmetic and comparisons, and the imported names the driver
    calls.  Methods are functions of the receiver; a method that mutates
    its receiver returns the receiver's new value ([deviationcheck] returns
    the receiver together with its result).  The imported functions are
    taken to return.  [fdiv] is the quotient of two Python numbers where
    the divisor is not zero; the driver tests the divisor before it divides
    ([py_truediv]). *)
Class Tools `{Carrier} : Type := {
  fadd : F -> F -> F;
  fsub : F -> F -> F;
  fmul : F -> F -> F;
  fdiv : F -> F -> F;
  flt : F -> F -> bool;                           (* a < b *)
  fge : F -> F -> bool;                           (* a >= b *)
  feq : F -> F -> bool;                           (* a == b *)
  fzero : F;                                      (* 0.0 *)
  fmargin : F;                                    (* 0.01 *)
  LatLon2XY : F -> F -> Pt;
  XY2LatLon : F -> F -> Pt;
  mkPos : Pt -> Pos;                              (* Pos((x, y)) *)
  Pos_sub : Pos -> Pos -> Pos;                    (* p - q *)
  Pos_length : Pos -> F;                          (* p.length() *)
  mkObs : list Pt -> ObsT;                        (* Obs(vertices) *)
  vert : ObsT -> list Pt;                         (* obs.vert *)
  parse : Pos -> Pos -> F * F * list Pt;
  specifywindfield : F -> F -> F -> F -> Wind;
  callWinds : Wind -> Route -> list (list F);
  intersectionpt : Pt -> Pt -> Pt -> Pt -> Pos;
  intersectroute : ObsT -> Route -> list (Z * Z);
  resort : ObsT -> list Z -> Route -> list (Z * Z) -> list Z;
  leftalt : ObsT -> list Z -> list Pt;
  rightalt : ObsT -> list Z -> list Pt;
  extupdate : ObsT -> list Pt -> Pos -> list Pt;
  clean : Route -> list ObsT -> Route;
  route_insert : Route -> Z -> list Pt -> Route;  (* route.insert(i, wpts) *)
  backwardcleanup : Route -> list ObsT -> Z -> Route;
  deviationcheck : Route -> Route -> Z -> list (list F) -> Route * F
}.

(** ** The search driver *)

Section Driver.
Context `{T : Tools}.

(** [min(a, b)] and [max(a, b)] on two floats. *)
Definition fmin2 (a b : F) : F := if flt b a then b else a.
Definition fmax2 (a b : F) : F := if flt a b then b else a.

(** [incumbent] starts as the float [inf] and later holds a route. *)
Inductive incumbent_t : Type :=
| IncInf
| IncRoute (r : Route).

(** Attribute access [incumbent.x]: a float has no route attributes. *)
Definition inc_route (i : incumbent_t) : outcome Route :=
  match i with
  | IncInf => Raise AttributeError
  | IncRoute r => Done r
  end.

(** The variables the [while] loop reads and writes: the class attribute
    [Route.active], [incflag] and [incumbent]. *)
Record state : Type := mkState {
  active : list Route;
  incflag : Z;
  incumbent : incumbent_t
}.

(** What the loop only reads. *)
Record env : Type := mkEnv {
  e_origin : Pos;
  e_destination : Pos;
  e_TAS : F;
  e_obsDic_xy : list ObsT;
  e_wind : Wind;
  windsOn : Z;
  optimizationpriority : Z
}.

(** Lines 216-229: the parent is the only entry, or the entry of least
    deviation. *)
Definition select_parent (act : list Route) : outcome (Route * list Route) :=
  if Z.of_nat (length act) =? 1
  then py_pop_last act
  else
    let deviationmin := map deviation act in
    m ← py_min flt deviationmin;
    topop ← py_index feq m deviationmin;
    py_pop_at act topop.

(** Lines 241-259: is the parent fathomed against the incumbent? *)
Definition fathomed (E : env) (st : state) (parent : Route) : outcome bool :=
  if incflag st =? 1
  then
    if optimizationpriority E =? 0
    then inc ← inc_route (incumbent st);
         Done (fge (distance parent) (distance inc))
    else if optimizationpriority E =? 1
    then inc ← inc_route (incumbent st);
         Done (fge (time parent) (time inc))
    else Done false
  else Done false.

(** Lines 266-269. *)
Definition all_intersections (E : env) (parent : Route) : list (list (Z * Z)) :=
  map (fun obstacle => intersectroute obstacle parent) (e_obsDic_xy E).

Definition truthy {A : Type} (l : list A) : bool :=
  match l with [] => false | _ :: _ => true end.

(** Lines 279-292: per obstacle, the least intersected route segment, or
    [nan] ([None]) when the obstacle is not hit. *)
Definition first_seg (tab : list (Z * Z)) : option Z :=
  match map fst tab with
  | [] => None
  | s :: ss => Some (fold_left Z.min ss s)
  end.

Definition firstseg_of (allintersections : list (list (Z * Z))) : list (option Z) :=
  map first_seg allintersections.

(** [x == m] for an entry of [firstseg] and an int [m]. *)
Definition seg_eq (x : option Z) (m : Z) : bool :=
  match x with
  | Some s => s =? m
  | None => false
  end.

(** [[i for i, x in enumerate(firstseg) if x == m]] *)
Fixpoint indices_from (i : nat) (firstseg : list (option Z)) (m : Z) : list nat :=
  match firstseg with
  | [] => []
  | x :: xs =>
      if seg_eq x m then i :: indices_from (S i) xs m
      else indices_from (S i) xs m
  end.

(** Lines 310-314: the inner loop over the intersections of one obstacle. *)
Definition scan_obstacle (obs : ObsT) (routpt1 routpt2 : Pt) (refpt : Pos)
    (distlist : list F) (tab : list (Z * Z)) : outcome (list F) :=
  foldlM (fun dl (p : Z * Z) =>
            a ← py_nth (vert obs) (snd p);
            b ← py_nth (vert obs) (snd p + 1);
            let checkdist := Pos_sub (intersectionpt a b routpt1 routpt2) refpt in
            Done (dl ++ [Pos_length checkdist]))
         distlist tab.

(** Lines 309-315: the outer loop over the tied obstacles; [distlist] and
    [options] are carried from one obstacle to the next. *)
Definition scan_step (E : env) (allintersections : list (list (Z * Z)))
    (routpt1 routpt2 : Pt) (refpt : Pos)
    (acc : list F * list F) (i : nat) : outcome (list F * list F) :=
  tab ← of_option IndexError (allintersections !! i);
  obs ← of_option KeyError (e_obsDic_xy E !! i);
  distlist ← scan_obstacle obs routpt1 routpt2 refpt (fst acc) tab;
  mn ← py_min flt distlist;
  Done (distlist, snd acc ++ [mn]).

Definition scan_ties (E : env) (allintersections : list (list (Z * Z)))
    (routpt1 routpt2 : Pt) (refpt : Pos) (indices : list nat)
  : outcome (list F * list F) :=
  foldlM (scan_step E allintersections routpt1 routpt2 refpt) ([], []) indices.

(** Lines 301-320: the branching obstacle. *)
Definition choose_branch (E : env) (parent : Route)
    (allintersections : list (list (Z * Z))) : outcome nat :=
  let firstseg := firstseg_of allintersections in
  let valid_firstseg : list Z := omap id firstseg in
  m ← py_min Z.ltb valid_firstseg;
  if py_count seg_eq m firstseg >? 1
  then
    let indices := indices_from O firstseg m in
    routpt1 ← py_nth (waypoints parent) m;
    let refpt := mkPos routpt1 in
    routpt2 ← py_nth (waypoints parent) (m + 1);
    '(_, options) ← scan_ties E allintersections routpt1 routpt2 refpt indices;
    mo ← py_min flt options;
    k ← py_index feq mo options;
    of_option IndexError (indices !! k)
  else py_index seg_eq m firstseg.

(** The tie-break as the specification words it, for comparison with
    [choose_branch]: among the obstacles whose first intersected segment is
    the minimal one, the obstacle whose intersection point with that
    segment lies closest to the segment's start.  Only the intersections
    tabulated for that segment are measured, obstacle by obstacle. *)
Definition closest_step (E : env) (allintersections : list (list (Z * Z)))
    (routpt1 routpt2 : Pt) (refpt : Pos) (m : Z)
    (options : list F) (i : nat) : outcome (list F) :=
  tab ← of_option IndexError (allintersections !! i);
  obs ← of_option KeyError (e_obsDic_xy E !! i);
  distlist ← scan_obstacle obs routpt1 routpt2 refpt []
               (filter (fun p : Z * Z => fst p = m) tab);
  mn ← py_min flt distlist;
  Done (options ++ [mn]).

Definition closest_on_segment (E : env) (parent : Route)
    (allintersections : list (list (Z * Z))) : outcome nat :=
  let firstseg := firstseg_of allintersections in
  m ← py_min Z.ltb (omap id firstseg);
  let indices := indices_from O firstseg m in
  routpt1 ← py_nth (waypoints parent) m;
  let refpt := mkPos routpt1 in
  routpt2 ← py_nth (waypoints parent) (m + 1);
  options ← foldlM (closest_step E allintersections routpt1 routpt2 refpt m)
                   [] indices;
  mo ← py_min flt options;
  k ← py_index feq mo options;
  of_option IndexError (indices !! k).

(** How the accumulators of [scan_ties] and of the obstacle-by-obstacle
    scan correspond: nothing scanned yet, or [options] is the running
    minimum of the per-obstacle minima, and the minimum of [distlist] is its
    last entry. *)
Definition tie_rel (acc : list F * list F) (options' : list F) : Prop :=
  (acc = ([], []) /\ options' = []) \/
  exists c s1 rest,
    py_min flt (fst acc) = Done c /\
    snd acc = s1 :: running flt s1 rest /\
    options' = s1 :: rest /\
    c = fold_left (step_min flt) rest s1.

(** [np.zeros(n)] twice, or the winds aloft when winds are on. *)
Definition windsaloft (E : env) (r : Route) : list (list F) :=
  if windsOn E =? 1 then callWinds (e_wind E) r
  else [repeat fzero (length (waypoints r)); repeat fzero (length (waypoints r))].

(** Lines 387-399 and 412-424: one trial route from the parent and the
    cleaned alternative waypoints. *)
Definition trial_route (E : env) (parent : Route) (altWptIndex : Z)
    (altWptclean : list Pt) : Route :=
  let route := mkRoute (e_origin E) (e_destination E) (e_TAS E)
                 (waypoints parent) (distance parent) (time parent)
                 (deviation parent) in
  let route := route_insert route altWptIndex altWptclean in
  let lstpt := altWptIndex + Z.of_nat (length altWptclean) in
  let route := backwardcleanup route (e_obsDic_xy E) lstpt in
  let w := windsaloft E route in
  let '(route, dev) := deviationcheck route parent (optimizationpriority E) w in
  set_deviation route dev.

(** Lines 277-426: the parent hits an obstacle; push the left and the right
    trial route. *)
Definition branch_on (E : env) (st : state) (parent : Route)
    (allintersections : list (list (Z * Z))) : outcome state :=
  branch ← choose_branch E parent allintersections;
  intersectTab ← of_option IndexError (allintersections !! branch);
  obs ← of_option KeyError (e_obsDic_xy E !! branch);
  let segList := map snd intersectTab in
  let segList := resort obs segList parent intersectTab in
  let altWptL := leftalt obs segList in
  let altWptR := rightalt obs segList in
  let altWptLclean := extupdate obs altWptL (e_destination E) in
  let altWptRclean := extupdate obs altWptR (e_destination E) in
  first ← of_option IndexError (head intersectTab);
  let altWptIndex := fst first + 1 in
  let routeL := trial_route E parent altWptIndex altWptLclean in
  let routeR := trial_route E parent altWptIndex altWptRclean in
  Done (mkState (active st ++ [routeL] ++ [routeR]) (incflag st) (incumbent st)).

(** Lines 441-464: the parent hits nothing; it may become the incumbent. *)
Definition update_incumbent (E : env) (st : state) (parent : Route)
  : outcome state :=
  if incflag st =? 0
  then Done (mkState (active st) 1 (IncRoute parent))
  else if optimizationpriority E =? 0
  then inc ← inc_route (incumbent st);
       if flt (distance parent) (distance inc)
       then Done (mkState (active st) (incflag st) (IncRoute parent))
       else Done st
  else if optimizationpriority E =? 1
  then inc ← inc_route (incumbent st);
       if flt (time parent) (time inc)
       then Done (mkState (active st) (incflag st) (IncRoute parent))
       else Done st
  else Done st.

(** Lines 265-464: what happens to a parent that was not fathomed. *)
Definition expand (E : env) (st : state) (parent : Route) : outcome state :=
  let allintersections := all_intersections E parent in
  if Z.of_nat (length (filter (fun tab => truthy tab = true) allintersections)) =? 0
  then update_incumbent E st parent
  else branch_on E st parent allintersections.

(** Lines 213-464: the body of the [while] loop below the size check. *)
Definition iteration (E : env) (st : state) : outcome state :=
  '(parent, rest) ← select_parent (active st);
  let st := mkState rest (incflag st) (incumbent st) in
  skip ← fathomed E st parent;
  if skip : bool then Done st else expand E st parent.

(** Lines 201-464: the [while len(Route.active)] loop; [fuel] bounds the
    number of iterations. *)
Fixpoint search (fuel : nat) (E : env) (st : state) : outcome state :=
  match fuel with
  | O => Timeout
  | S fuel' =>
      if Z.of_nat (length (active st)) =? 0 then Done st
      else if Z.of_nat (length (active st)) >? 500 then Raise ImpossibleToFindRoute
      else st' ← iteration E st; search fuel' E st'
  end.

(** Lines 470 and 484-486: unzip the incumbent's waypoints (two values are
    unpacked, so the route must have a waypoint) and project them back. *)
Definition waypoint_latlon (inc : incumbent_t) : outcome (list Pt) :=
  r ← inc_route inc;
  match waypoints r with
  | [] => Raise ValueError
  | _ :: _ => Done (map (fun element => XY2LatLon (fst element) (snd element))
                        (waypoints r))
  end.

(** Lines 86-126: the read-only environment, for given settings. *)
Definition make_env (winds prio : Z) (lat0 lon0 TAS0 latdest londest : F)
    (inputObs : list (list Pt)) : env :=
  let origin := mkPos (LatLon2XY lat0 lon0) in
  let destination := mkPos (LatLon2XY latdest londest) in
  let ymin := fmin2 lat0 latdest in
  let ymax := fmax2 lat0 latdest in
  let xmin := fmin2 lon0 londest in
  let xmax := fmax2 lon0 londest in
  let obstacle_list_xy :=
    map (fun polygon => map (fun ll : Pt => LatLon2XY (fst ll) (snd ll)) polygon)
        inputObs in
  let obsDic_xy := map mkObs obstacle_list_xy in
  let margin := fmargin in
  let xspan := fsub xmax xmin in
  let yspan := fsub ymax ymin in
  let xmin := fsub xmin (fmul margin xspan) in
  let xmax := fadd xmax (fmul margin xspan) in
  let ymin := fsub ymin (fmul margin yspan) in
  let ymax := fadd ymax (fmul margin yspan) in
  let wind := specifywindfield ymin ymax xmin xmax in
  mkEnv origin destination TAS0 obsDic_xy wind winds prio.

(** [a / b] on Python numbers: a divisor equal to zero raises. *)
Definition py_truediv (a b : F) : outcome F :=
  if feq b fzero then Raise ZeroDivisionError else Done (fdiv a b).

(** Lines 133-135 and 155: the direct route, cleaned.  The division of
    line 134 raises when [TAS] is zero. *)
Definition direct_route (E : env) : outcome Route :=
  let '(distance, heading, wypts) := parse (e_origin E) (e_destination E) in
  nominaltime ← py_truediv distance (e_TAS E);
  let directrt := mkRoute (e_origin E) (e_destination E) (e_TAS E) wypts
                    distance nominaltime fzero in
  Done (clean directrt (e_obsDic_xy E)).

(** The function with its two settings as arguments.  The class attribute
    [Route.active] is threaded: [active0] is its value at the call, the
    second component of the result its value at the return. *)
Definition det_path_planning_with (winds prio : Z) (fuel : nat)
    (active0 : list Route)
    (lat0 lon0 altitude TAS0 latdest londest : F) (inputObs : list (list Pt))
  : outcome (list Pt * list Route) :=
  let E := make_env winds prio lat0 lon0 TAS0 latdest londest inputObs in
  directrt ← direct_route E;
  act ← py_set_last active0 directrt;
  (* incflag = 0; incumbent = float('inf') *)
  st ← search fuel E (mkState act 0 IncInf);
  wl ← waypoint_latlon (incumbent st);
  Done (wl, active st).

(** [det_path_planning(lat0, lon0, altitude, TAS, latdest, londest,
    inputObs)]: lines 41 and 43 fix [windsOn = 0] and
    [optimizationpriority = 0]. *)
Definition det_path_planning (fuel : nat) (active0 : list Route)
    (lat0 lon0 altitude TAS0 latdest londest : F) (inputObs : list (list Pt))
  : outcome (list Pt * list Route) :=
  let windsOn := 0 in
  let optimizationpriority := 0 in
  det_path_planning_with windsOn optimizationpriority fuel active0
    lat0 lon0 altitude TAS0 latdest londest inputObs.

(** One turn of the [while] loop as a relation between states: the loop
    condition holds, the size check passes, the body completes. *)
Inductive loop_step (E : env) (st st' : state) : Prop :=
| LoopStep :
    active st <> [] ->
    Z.of_nat (length (active st)) <= 500 ->
    iteration E st = Done st' ->
    loop_step E st st'.

(** *** Invariants of the loop *)

(** [incflag] is 0, or it is 1 and [incumbent] holds a route. *)
Definition flag_ok (st : state) : Prop :=
  incflag st = 0 \/ (incflag st = 1 /\ exists r, incumbent st = IncRoute r).

(** As long as no incumbent was recorded, some route is still open. *)
Definition pending (st : state) : Prop :=
  incflag st = 0 -> active st <> [].

(** A route hits no obstacle of the environment. *)
Definition feasible (E : env) (r : Route) : Prop :=
  Forall (fun obs => intersectroute obs r = []) (e_obsDic_xy E).

Definition inc_feasible (E : env) (st : state) : Prop :=
  forall r, incumbent st = IncRoute r -> feasible E r.

(** The driver's own exceptions other than the attribute error on the
    [float('inf')] placeholder. *)
Definition not_attr (e : exn) : Prop := e <> AttributeError.

End Driver.

(** ** Laws of comparisons *)

(** [lt] and [eq] behave as the strict order and the equality of a totally
    ordered type.  Python ints satisfy these laws, and so do Python floats
    as long as no NaN is compared. *)
Record OrderLaws {A : Type} (lt eq : A -> A -> bool) : Prop := {
  ol_refl : forall a, eq a a = true;
  ol_irrefl : forall a, lt a a = false;
  ol_trans : forall a b c, lt a b = true -> lt b c = true -> lt a c = true;
  ol_total : forall a b, lt a b = false -> lt b a = false -> eq a b = true;
  ol_eq_l : forall a b c, eq a b = true -> lt a c = lt b c;
  ol_eq_r : forall a b c, eq a b = true -> lt c a = lt c b
}.

Class FloatOrder `{Tools} : Prop :=
  float_order : OrderLaws flt feq.


(** ** What the driver expects of the imported names *)

(** [intersectroute] reports pairs (route segment, obstacle edge) by
    position: both ends of the segment are waypoints of the route, both ends
    of the edge are entries of [vert].  Floats compare equal to themselves
    (no NaN). *)
Class ToolsContract `{Tools} : Prop := {
  intersectroute_in_range : forall (obs : ObsT) (r : Route) (s k : Z),
    (s, k) ∈ intersectroute obs r ->
    0 <= s /\ s + 1 < Z.of_nat (length (waypoints r)) /\
    0 <= k /\ k + 1 < Z.of_nat (length (vert obs));
  feq_reflexive : forall a : F, feq a a = true
}.

(** ** Costs under the active priority *)

(** The cost the driver compares under the active priority: [distance] for
    priority 0, [time] for priority 1 (lines 242-259 and 453-464). *)
Definition active_cost `{Tools} (E : env) (r : Route) : F :=
  if optimizationpriority E =? 0 then distance r else time r.

(** [a >= b] excludes [a < b] (floats other than NaN). *)
Class FloatGe `{Tools} : Prop :=
  fge_not_lt : forall a b : F, fge a b = true -> flt a b = false.

(** ** An exact implementation of the interface

    Rational coordinates, the taxicab length of a vector, routes that
    consist of their turning points only.  It is used to run the driver on
    concrete scenarios. *)

Module Exact.
Local Open Scope Q_scope.

Definition qadd (a b : Q) : Q := Qred (a + b).
Definition qsub (a b : Q) : Q := Qred (a - b).
Definition qmul (a b : Q) : Q := Qred (a * b).
Definition qdiv (a b : Q) : Q := Qred (a / b).
Definition qlt (a b : Q) : bool := negb (Qle_bool b a).
Definition qge (a b : Q) : bool := Qle_bool b a.
Definition qeq (a b : Q) : bool := Qeq_bool a b.
Definition qabs (a : Q) : Q := Qred (Qabs a).

#[export] Instance carrier : Carrier :=
  {| F := Q; Pos := Q * Q; ObsT := list (Q * Q); Wind := unit |}.

Definition vsub (p q : Q * Q) : Q * Q := (qsub (fst p) (fst q), qsub (snd p) (snd q)).

(** Taxicab length; along one line it orders points as any other norm. *)
Definition vlength (p : Q * Q) : Q := qadd (qabs (fst p)) (qabs (snd p)).

(** z-component of [(a - o) x (b - o)]. *)
Definition cross (o a b : Q * Q) : Q :=
  qsub (qmul (qsub (fst a) (fst o)) (qsub (snd b) (snd o)))
       (qmul (qsub (snd a) (snd o)) (qsub (fst b) (fst o))).

(** The segments [p1 p2] and [q1 q2] cross in a point interior to both. *)
Definition crosses (p1 p2 q1 q2 : Q * Q) : bool :=
  qlt (qmul (cross q1 q2 p1) (cross q1 q2 p2)) 0 &&
  qlt (qmul (cross p1 p2 q1) (cross p1 p2 q2)) 0.

(** Consecutive pairs of a point list. *)
Definition segments (l : list (Q * Q)) : list ((Q * Q) * (Q * Q)) :=
  zip l (tail l).

(** Modelled from the spec: [Obs.intersectroute] is not part of the sources
    at hand.  "For every consecutive pair of route waypoints and every
    obstacle edge, tests intersection; returns all intersecting pairs".  A
    segment and an edge count as intersecting when they cross in a point
    interior to both, so that a detour through an obstacle's vertices is
    free of that obstacle. *)
Definition x_intersectroute (obs : list (Q * Q)) (r : Route) : list (Z * Z) :=
  concat (imap (fun i (seg : (Q * Q) * (Q * Q)) =>
            omap id (imap (fun j (edge : (Q * Q) * (Q * Q)) =>
                       if crosses (fst seg) (snd seg) (fst edge) (snd edge)
                       then Some (Z.of_nat i, Z.of_nat j) else None)
                     (segments obs)))
          (segments (waypoints r))).

(** Modelled from the spec: [intersectionpt] is not part of the sources at
    hand.  "Standard 2-D segment intersection via parametric line
    equations": the point [a + t (b - a)] of the line through [a] and [b]
    that lies on the line through [p] and [q]. *)
Definition x_intersectionpt (a b p q : Q * Q) : Q * Q :=
  let d := qsub (qmul (qsub (fst b) (fst a)) (qsub (snd q) (snd p)))
                (qmul (qsub (snd b) (snd a)) (qsub (fst q) (fst p))) in
  if qeq d 0 then p
  else
    let t := qdiv (qsub (qmul (qsub (fst p) (fst a)) (qsub (snd q) (snd p)))
                        (qmul (qsub (snd p) (snd a)) (qsub (fst q) (fst p)))) d in
    (qadd (fst a) (qmul t (qsub (fst b) (fst a))),
     qadd (snd a) (qmul t (qsub (snd b) (snd a)))).

Definition nth_pt (l : list (Q * Q)) (i : Z) : Q * Q :=
  nth (Z.to_nat i) l (0, 0).

Fixpoint insert_by_key (x : Q * Z) (l : list (Q * Z)) : list (Q * Z) :=
  match l with
  | [] => [x]
  | y :: ys => if qlt (fst x) (fst y) then x :: l else y :: insert_by_key x ys
  end.

(** Modelled from the spec: [Obs.resort] is not part of the sources at hand.
    The edges that intersect the first intersected route segment, "in the
    order the route would actually traverse them". *)
Definition x_resort (obs : list (Q * Q)) (segList : list Z) (parent : Route)
    (intersectTab : list (Z * Z)) : list Z :=
  match intersectTab with
  | [] => []
  | (s0, _) :: _ =>
      let p := nth_pt (waypoints parent) s0 in
      let q := nth_pt (waypoints parent) (s0 + 1)%Z in
      let keyed :=
        map (fun e : Z =>
               (vlength (vsub (x_intersectionpt (nth_pt obs e) (nth_pt obs (e + 1)%Z) p q) p), e))
            (map snd (filter (fun sk : Z * Z => fst sk = s0) intersectTab)) in
      map snd (fold_right insert_by_key [] keyed)
  end.

(** The ring has [length obs - 1] vertices; [obs] repeats the first one. *)
Definition ring (obs : list (Q * Q)) : Z := (Z.of_nat (length obs) - 1)%Z.

Definition walk (obs : list (Q * Q)) (start step : Z) (count : nat) : list (Q * Q) :=
  map (fun k => nth_pt obs ((start + step * Z.of_nat k) mod ring obs)%Z) (seq 0 count).

(** Modelled from the spec: [Obs.leftalt] and [Obs.rightalt] are not part
    of the sources at hand.  "Walk the obstacle's vertex ring in the
    decreasing-index direction (left) or increasing-index direction (right)
    starting just before the first intersected edge and ending just after
    the last intersected edge". *)
Definition x_leftalt (obs : list (Q * Q)) (segList : list Z) : list (Q * Q) :=
  match segList, last segList with
  | e1 :: _, Some e2 =>
      walk obs e1 (-1)%Z (S (Z.to_nat ((e1 - (e2 + 1)) mod ring obs)%Z))
  | _, _ => []
  end.

Definition x_rightalt (obs : list (Q * Q)) (segList : list Z) : list (Q * Q) :=
  match segList, last segList with
  | e1 :: _, Some e2 =>
      walk obs (e1 + 1)%Z 1%Z (S (Z.to_nat ((e2 - (e1 + 1)) mod ring obs)%Z))
  | _, _ => []
  end.

Definition pt_eq (p q : Q * Q) : bool := qeq (fst p) (fst q) && qeq (snd p) (snd q).

(** Modelled from the spec: [Obs.extupdate] is not part of the sources at
    hand.  "Removes a detour waypoint if it duplicates the destination or
    duplicates the immediately preceding point". *)
Fixpoint x_extupdate_from (prev : option (Q * Q)) (alt : list (Q * Q))
    (dest : Q * Q) : list (Q * Q) :=
  match alt with
  | [] => []
  | p :: ps =>
      if pt_eq p dest || from_option (pt_eq p) false prev
      then x_extupdate_from prev ps dest
      else p :: x_extupdate_from (Some p) ps dest
  end.

Definition path_length (l : list (Q * Q)) : Q :=
  fold_left (fun acc (seg : (Q * Q) * (Q * Q)) =>
               qadd acc (vlength (vsub (snd seg) (fst seg))))
            (segments l) 0.

(** Modelled from the spec: [Route.insert] is not part of the sources at
    hand.  "Splices a detour's waypoint sequence into the route". *)
Definition x_insert (r : Route) (i : Z) (alt : list (Q * Q)) : Route :=
  mkRoute (origin r) (destination r) (TAS r)
    (take (Z.to_nat i) (waypoints r) ++ alt ++ drop (Z.to_nat i) (waypoints r))
    (distance r) (time r) (deviation r).

(** Modelled from the spec: [Route.deviationcheck] is not part of the
    sources at hand.  The route's distance and time are recomputed; the
    result is "[newRoute.distance - parent.distance] when optimizing
    distance, or [newRoute.time - parent.time] when optimizing time". *)
Definition x_deviationcheck (r parent : Route) (prio : Z) (w : list (list Q))
  : Route * Q :=
  let d := path_length (waypoints r) in
  let t := qdiv d (TAS r) in
  (mkRoute (origin r) (destination r) (TAS r) (waypoints r) d t (deviation r),
   if (prio =? 0)%Z then qsub d (distance parent) else qsub t (time parent)).

(** The direct route consists of origin and destination ([parse] puts no
    waypoint between them), so [clean] has nothing to remove; and
    [backwardcleanup] keeps every waypoint. *)
#[export] Instance tools : Tools := {|
  fadd := qadd; fsub := qsub; fmul := qmul; fdiv := qdiv;
  flt := qlt; fge := qge; feq := qeq;
  fzero := 0; fmargin := 1 # 100;
  LatLon2XY := fun lat lon => (qmul lon 60, qmul lat 60);
  XY2LatLon := fun x y => (qdiv y 60, qdiv x 60);
  mkPos := fun p => p;
  Pos_sub := vsub;
  Pos_length := vlength;
  mkObs := fun vs => vs;
  vert := fun obs => obs;
  parse := fun o d => (vlength (vsub d o), 0, [o; d]);
  specifywindfield := fun _ _ _ _ => tt;
  callWinds := fun _ r => [repeat 0 (length (waypoints r)); repeat 0 (length (waypoints r))];
  intersectionpt := x_intersectionpt;
  intersectroute := x_intersectroute;
  resort := x_resort;
  leftalt := x_leftalt;
  rightalt := x_rightalt;
  extupdate := fun _ alt dest => x_extupdate_from None alt dest;
  clean := fun r _ => r;
  route_insert := x_insert;
  backwardcleanup := fun r _ _ => r;
  deviationcheck := x_deviationcheck
|}.

(** The scenario of the specification: from (0,0) to (100,0) NM, one square
    obstacle with corners (40,-10), (40,10), (60,10), (60,-10).  In degrees:
    one degree is 60 NM. *)
Definition square_ll : list (Q * Q) :=
  [(-1 # 6, 2 # 3); (1 # 6, 2 # 3); (1 # 6, 1); (-1 # 6, 1); (-1 # 6, 2 # 3)].

(** Some route to stand in the slot that the seed assignment overwrites. *)
Definition slot : Route := mkRoute (0, 0) (0, 0) 0 [] 0 0 0.

(** The direct route of a scenario; the airspeeds of the scenarios are not
    zero. *)
Definition direct (E : env) : Route :=
  match direct_route E with
  | Done r => r
  | _ => slot
  end.

(** A route parked in [Route.active] with a deviation of 1 NM, so that the
    direct route is selected before it. *)
Definition parked : Route :=
  mkRoute (0, 0) (50, 0) 50 [(0, 0); (50, 0)] 50 1 1.

Definition square_env : env :=
  make_env 0 0 0 0 400 0 (5 # 3) [square_ll].

Definition square_run : outcome (list Pt * list Route) :=
  det_path_planning 10 [slot] 0 0 30000 400 0 (5 # 3) [square_ll].

(** The two trial routes of the square scenario, below and above it. *)
Definition square_routeL : Route :=
  mkRoute (0, 0) (100, 0) 400 [(0, 0); (40, -10); (60, -10); (100, 0)]
          120 (3 # 10) 20.
Definition square_routeR : Route :=
  mkRoute (0, 0) (100, 0) 400 [(0, 0); (40, 10); (60, 10); (100, 0)]
          120 (3 # 10) 20.

(** A route left in [Route.active] by earlier use: 50 NM flown at 50 kts. *)
Definition stale : Route :=
  mkRoute (0, 0) (50, 0) 50 [(0, 0); (50, 0)] 50 1 0.

(** Two boxes on the x-axis, the nearer one listed second. *)
Definition boxNear : list (Q * Q) :=
  [(2, -1); (2, 1); (3, 1); (3, -1); (2, -1)].
Definition boxes_env : env :=
  make_env 0 0 0 0 400 0 (1 # 6)
    [map (fun p : Q * Q => (qdiv (snd p) 60, qdiv (fst p) 60))
         [(4, -1); (4, 1); (5, 1); (5, -1); (4, -1)];
     map (fun p : Q * Q => (qdiv (snd p) 60, qdiv (fst p) 60)) boxNear].

(** No obstacles, from (0,0) to (100,0) NM. *)
Definition free_env : env := make_env 0 0 0 0 400 0 (5 # 3) [].

(** Three obstacles, in planar coordinates (the projection is scaled out:
    degrees are NM / 60).  [boxA] is a box on the x-axis between x = 4 and
    x = 5; [sliverB] crosses the x-axis near x = 8 and the line x = 10 near
    y = 2; [wedgeC] reaches from the corner (10,0) along the line
    x + y = 10, across the diagonal, to beyond x = 0. *)
Definition to_ll (p : Q * Q) : Q * Q := (qdiv (snd p) 60, qdiv (fst p) 60).
Definition boxA : list (Q * Q) :=
  [(4, -1); (4, 1); (5, 1); (5, -1); (4, -1)].
Definition sliverB : list (Q * Q) :=
  [(7, -1); (9, 7 # 4); (11, 9 # 4); (8, -1); (7, -1)].
Definition wedgeC : list (Q * Q) :=
  [(10, 0); (-2, 11); (-1, 12); (10, 0)].
Definition corner_obstacles_ll : list (list (Q * Q)) :=
  [map to_ll boxA; map to_ll sliverB; map to_ll wedgeC].

(** From (0,0) to (10,10) NM among these obstacles. *)
Definition corner_env : env :=
  make_env 0 0 0 0 400 (1 # 6) (1 # 6) corner_obstacles_ll.

(** The detours of the direct route around [wedgeC]: through its corner,
    and around its far end. *)
Definition corner_route : Route :=
  mkRoute (0, 0) (10, 10) 400 [(0, 0); (10, 0); (10, 10)] 20 (1 # 20) 0.
Definition far_route : Route :=
  mkRoute (0, 0) (10, 10) 400 [(0, 0); (-2, 11); (-1, 12); (10, 10)]
          28 (7 # 100) 8.

End Exact.

(** * [bluesky_gym/envs/descend_env.py]: the reward of [DescendEnv] *)

Module Descend.

(** The attributes of a [DescendEnv] that [_get_reward] reads.  [_get_obs]
    sets [altitude] and [runway_distance] from the simulator's float64
    arrays.  [target_alt] is the integer [alt_init + randint(-500, 500)] of
    [reset]; its only use is as an operand of a subtraction with a float,
    where Python converts it, and the field holds the converted value. *)
Record DescendEnv := mkDescendEnv {
  altitude : float;
  runway_distance : float;
  target_alt : float
}.

(** [DescendEnv._get_reward]: the pair [(reward, terminated)], with
    [terminated] the integer 0 or 1.  The integer constants stand where
    Python converts them to floats ([-100] is returned as an integer of the
    same value).  When none of the three tests holds the method falls off
    its end and returns [None]. *)
Definition _get_reward (self : DescendEnv) : option (float * Z) :=
  if ((0 <? runway_distance self) && (0 <? altitude self))%float then
    Some ((abs (target_alt self - altitude self) * -5 / 3000)%float, 0)
  else if (altitude self <=? 0)%float then
    Some ((-100)%float, 1)
  else if (runway_distance self <=? 0)%float then
    Some ((abs (100 - altitude self) * -50 / 3000)%float, 1)
  else None.

(** The four ways a float compares with zero. *)
Inductive fclass : Set := FNan | FNeg | FZero | FPos.

Definition classify (x : float) : fclass :=
  match Prim2SF x with
  | S754_nan => FNan
  | S754_zero _ => FZero
  | S754_infinity s | S754_finite s _ _ => if s then FNeg else FPos
  end.

(** NaN or a float with the sign bit set. *)
Definition negsign (x : spec_float) : Prop :=
  match x with
  | S754_nan => True
  | S754_zero s | S754_infinity s | S754_finite s _ _ => s = true
  end.

Definition finite_with_sign (s : bool) (x : spec_float) : bool :=
  match x with
  | S754_finite s' _ _ => Bool.eqb s s'
  | _ => false
  end.

End Descend.
(** ** Facts about the list primitives *)

Example py_nth_last : py_nth [10; 20; 30] (-1) = Done 30.
Proof. reflexivity. Qed.

Example py_nth_out_of_range : py_nth [10; 20; 30] 3 = @Raise Z IndexError.
Proof. reflexivity. Qed.

Example py_min_first_of_equals :
  py_min (fun a b : Z * Z => fst a <? fst b) [(2, 0); (1, 1); (1, 2)]
  = Done (1, 1).
Proof. reflexivity. Qed.

Example py_index_first : py_index Z.eqb 1 [2; 1; 1] = Done 1%nat.
Proof. reflexivity. Qed.

Example py_set_last_keeps_front : py_set_last [1; 2; 3] 9 = Done [1; 2; 9].
Proof. reflexivity. Qed.

Example py_set_last_empty : py_set_last [] 9 = @Raise (list Z) IndexError.
Proof. reflexivity. Qed.

Example running_example : running Z.ltb 5 [7; 3; 4; 1] = [5; 3; 3; 1].
Proof. reflexivity. Qed.

Section ListFacts.
Context {A : Type}.

Lemma bind_Done {B C : Type} (m : outcome B) (f : B -> outcome C) (c : C) :
  (m ≫= f) = Done c -> exists b, m = Done b /\ f b = Done c.
Proof. destruct m as [b| |]; simpl; intros Hm; try discriminate. eauto. Qed.

Lemma fold_min_spec (lt eq : A -> A -> bool) (L : OrderLaws lt eq) :
  forall (xs : list A) (x : A),
    let m := fold_left (step_min lt) xs x in
    m ∈ x :: xs /\ forall y, y ∈ x :: xs -> lt y m = false.
Proof.
  induction xs as [|a xs IH]; intros x; simpl.
  - split; [left|]. intros y Hy. apply list_elem_of_singleton in Hy as ->.
    apply (ol_irrefl _ _ L).
  - change (step_min lt x a) with (if lt a x then a else x).
    destruct (lt a x) eqn:Hax.
    + destruct (IH a) as [Hin Hmin]. split.
      * right. exact Hin.
      * intros y Hy. apply elem_of_cons in Hy as [->|Hy]; [|apply Hmin, Hy].
        set (m := fold_left (step_min lt) xs a) in *.
        destruct (lt x m) eqn:Hxm; [|reflexivity].
        assert (lt a m = true) as Ham by (eapply (ol_trans _ _ L); eauto).
        rewrite Hmin in Ham; [discriminate | left].
    + destruct (IH x) as [Hin Hmin]. split.
      * apply elem_of_cons in Hin as [->|Hin]; [left | right; right; exact Hin].
      * intros y Hy. apply elem_of_cons in Hy as [->|Hy]; [apply Hmin; left|].
        apply elem_of_cons in Hy as [->|Hy]; [|apply Hmin; right; exact Hy].
        set (m := fold_left (step_min lt) xs x) in *.
        destruct (lt a m) eqn:Ham; [|reflexivity].
        assert (lt x m = false) as Hxm by (apply Hmin; left).
        (* a < m and not (a < x): then x < m or x == m, both impossible *)
        destruct (lt m x) eqn:Hmx.
        { assert (lt a x = true) by (eapply (ol_trans _ _ L); eauto). congruence. }
        assert (eq x m = true) as He by (apply (ol_total _ _ L); assumption).
        rewrite (ol_eq_r _ _ L _ _ a He) in Hax. congruence.
Qed.

Lemma py_min_spec (lt eq : A -> A -> bool) (L : OrderLaws lt eq) (l : list A) :
  l <> [] ->
  exists m, py_min lt l = Done m /\ m ∈ l /\ forall y, y ∈ l -> lt y m = false.
Proof.
  destruct l as [|x xs]; [congruence|]. intros _.
  eexists. split; [reflexivity|]. apply (fold_min_spec lt eq L).
Qed.

Lemma py_min_elem (lt : A -> A -> bool) (l : list A) :
  l <> [] -> exists m, py_min lt l = Done m /\ m ∈ l.
Proof.
  destruct l as [|x xs]; [congruence|]. intros _.
  eexists. split; [reflexivity|].
  revert x. induction xs as [|a xs IH]; intros x; simpl; [left|].
  change (step_min lt x a) with (if lt a x then a else x). destruct (lt a x).
  - right. apply IH.
  - specialize (IH x). apply elem_of_cons in IH as [->|IH];
      [left | right; right; exact IH].
Qed.

Lemma py_index_spec {B : Type} (eq : A -> B -> bool) (x : B) (l : list A) :
  (exists y, y ∈ l /\ eq y x = true) ->
  exists i y, py_index eq x l = Done i /\ l !! i = Some y /\ eq y x = true /\
    forall j z, (j < i)%nat -> l !! j = Some z -> eq z x = false.
Proof.
  induction l as [|a l IH]; intros (y & Hy & He).
  - inversion Hy.
  - simpl. destruct (eq a x) eqn:Hax.
    + exists O, a. repeat split; auto. intros j z Hj. lia.
    + apply elem_of_cons in Hy as [->|Hy]; [congruence|].
      destruct IH as (i & y' & Hi & Hl & He' & Hlt); [eauto|].
      rewrite Hi. simpl. exists (S i), y'. repeat split; auto.
      intros [|j] z Hj Hz; simpl in Hz.
      * congruence.
      * apply (Hlt j); [lia | exact Hz].
Qed.


Lemma raises_in_Done {B : Type} (S : exn -> Prop) (b : B) :
  raises_in S (Done b).
Proof. intros e He. discriminate. Qed.

Lemma raises_in_Raise {B : Type} (S : exn -> Prop) (e : exn) :
  S e -> raises_in S (@Raise B e).
Proof. intros HS e' He. injection He as <-. exact HS. Qed.

Lemma raises_in_bind {B C : Type} (S : exn -> Prop) (m : outcome B)
    (f : B -> outcome C) :
  raises_in S m -> (forall b, m = Done b -> raises_in S (f b)) ->
  raises_in S (m ≫= f).
Proof.
  intros Hm Hf e He. destruct m as [b|e'|]; simpl in He; try discriminate.
  - exact (Hf b eq_refl e He).
  - apply Hm. congruence.
Qed.

Lemma raises_in_of_option {B : Type} (S : exn -> Prop) (e : exn) (o : option B) :
  S e -> raises_in S (of_option e o).
Proof. intros HS. destruct o; [apply raises_in_Done | apply raises_in_Raise, HS]. Qed.

Lemma raises_in_foldlM {B C : Type} (S : exn -> Prop) (f : B -> C -> outcome B) :
  (forall acc x, raises_in S (f acc x)) ->
  forall l acc, raises_in S (foldlM f acc l).
Proof.
  intros Hf. induction l as [|x l IH]; intros acc; simpl.
  - apply raises_in_Done.
  - apply raises_in_bind; [apply Hf | intros b _; apply IH].
Qed.

Lemma raises_in_py_nth (S : exn -> Prop) (l : list A) (i : Z) :
  S IndexError -> raises_in S (py_nth l i).
Proof.
  intros HS. unfold py_nth.
  destruct (i <? 0); [destruct (_ <? 0)|];
    auto using raises_in_Raise, raises_in_of_option.
Qed.

Lemma raises_in_py_min (S : exn -> Prop) (lt : A -> A -> bool) (l : list A) :
  S ValueError -> raises_in S (py_min lt l).
Proof. intros HS. destruct l; [apply raises_in_Raise, HS | apply raises_in_Done]. Qed.

Lemma raises_in_py_index {B : Type} (S : exn -> Prop) (eq : A -> B -> bool)
    (x : B) (l : list A) :
  S ValueError -> raises_in S (py_index eq x l).
Proof.
  intros HS. induction l as [|y l IH]; simpl.
  - apply raises_in_Raise, HS.
  - destruct (eq y x); [apply raises_in_Done|].
    apply raises_in_bind; [exact IH | intros; apply raises_in_Done].
Qed.

Lemma raises_in_py_pop_last (S : exn -> Prop) (l : list A) :
  S IndexError -> raises_in S (py_pop_last l).
Proof.
  intros HS. unfold py_pop_last.
  destruct (last l); [apply raises_in_Done | apply raises_in_Raise, HS].
Qed.

Lemma raises_in_py_pop_at (S : exn -> Prop) (l : list A) (i : nat) :
  S IndexError -> raises_in S (py_pop_at l i).
Proof.
  intros HS. unfold py_pop_at.
  destruct (l !! i); [apply raises_in_Done | apply raises_in_Raise, HS].
Qed.

End ListFacts.

Create HintDb raises.
#[global] Hint Resolve raises_in_Done raises_in_Raise raises_in_of_option
  raises_in_py_nth raises_in_py_min raises_in_py_index raises_in_py_pop_last
  raises_in_py_pop_at : raises.

(** Splits a sequence of binds and conditionals into its steps. *)
Ltac raises_steps :=
  repeat first
    [ apply raises_in_bind; [|intros ? _]
    | match goal with
      | |- raises_in _ (if ?c then _ else _) => destruct c
      | |- raises_in _ (let '(_, _) := ?p in _) => destruct p
      | |- raises_in _ (match ?p with (_, _) => _ end) => destruct p
      end ];
  eauto with raises.

(** ** Properties of the driver *)

Section DriverFacts.
Context `{T : Tools}.

(** *** Selection *)

Lemma select_parent_single (r : Route) :
  select_parent [r] = Done (r, []).
Proof. reflexivity. Qed.

(** C4 -- best-first selection.  With exactly one entry in [Route.active]
    that entry is popped.  With two or more, the popped entry sits at some
    position [i]; no entry has a smaller deviation, every entry before [i]
    has a strictly larger one (so [i] is the lowest position of a minimal
    entry), and the open set loses position [i] and nothing else. *)
Theorem C4_best_first_selection (Ord : FloatOrder) (act : list Route) :
  (length act = 1%nat ->
     exists r, act = [r] /\ select_parent act = Done (r, [])) /\
  ((2 <= length act)%nat ->
     exists i parent,
       act !! i = Some parent /\
       select_parent act = Done (parent, delete i act) /\
       (forall r, r ∈ act -> flt (deviation r) (deviation parent) = false) /\
       (forall j r, (j < i)%nat -> act !! j = Some r ->
                    flt (deviation parent) (deviation r) = true)).
Proof.
  split.
  - intros Hlen. destruct act as [|r [|r' act]]; simpl in Hlen; try lia.
    exists r. split; reflexivity.
  - intros Hlen. unfold select_parent.
    replace (Z.of_nat (length act) =? 1) with false
      by (symmetry; apply Z.eqb_neq; lia).
    destruct (py_min_spec flt feq Ord (map deviation act)) as (m & Hm & Hin & Hmin).
    { destruct act; simpl in *; [lia | congruence]. }
    rewrite Hm. simpl.
    destruct (py_index_spec feq m (map deviation act)) as (i & d & Hi & Hl & He & Hlt).
    { exists m. split; [exact Hin | apply (ol_refl _ _ Ord)]. }
    rewrite Hi. simpl.
    rewrite list_lookup_fmap in Hl.
    destruct (act !! i) as [parent|] eqn:Hp; simpl in Hl; [|discriminate].
    injection Hl as <-.
    exists i, parent. split; [exact Hp|]. split.
    { unfold py_pop_at. rewrite Hp. reflexivity. }
    split.
    + intros r Hr.
      rewrite (ol_eq_r _ _ Ord _ _ (deviation r) He).
      apply Hmin. apply list_elem_of_fmap. eauto.
    + intros j r Hj Hr.
      assert (feq (deviation r) m = false) as Hne.
      { apply (Hlt j); [exact Hj|]. rewrite list_lookup_fmap, Hr. reflexivity. }
      assert (flt (deviation r) m = false) as Hnlt.
      { apply Hmin. apply list_elem_of_fmap. exists r. split; [reflexivity|].
        apply list_elem_of_lookup. eauto. }
      rewrite (ol_eq_l _ _ Ord _ _ (deviation r) He).
      destruct (flt m (deviation r)) eqn:Hmr; [reflexivity|].
      rewrite (ol_total _ _ Ord _ _ Hnlt Hmr) in Hne. discriminate.
Qed.

(** *** Bound check *)

(** C5 -- fathoming.  When an incumbent exists and the popped route costs
    at least as much as the incumbent under the active metric, the iteration
    ends right after the selection: the state it leaves is the state after
    the pop, whatever the obstacles are ([expand] is not reached). *)
Theorem C5_bound_check (E : env) (st : state) (parent inc : Route)
    (rest : list Route) :
  select_parent (active st) = Done (parent, rest) ->
  incflag st = 1 ->
  incumbent st = IncRoute inc ->
  (optimizationpriority E = 0 /\ fge (distance parent) (distance inc) = true) \/
  (optimizationpriority E = 1 /\ fge (time parent) (time inc) = true) ->
  fathomed E (mkState rest (incflag st) (incumbent st)) parent = Done true /\
  iteration E st = Done (mkState rest (incflag st) (incumbent st)).
Proof.
  intros Hsel Hflag Hinc Hcost.
  assert (fathomed E (mkState rest (incflag st) (incumbent st)) parent = Done true)
    as Hf.
  { unfold fathomed. simpl. rewrite Hflag, Hinc. simpl.
    destruct Hcost as [[-> ->]|[-> ->]]; reflexivity. }
  split; [exact Hf|].
  unfold iteration. rewrite Hsel. simpl. rewrite Hf. reflexivity.
Qed.

(** *** Invariants of the loop *)

Lemma bind_Raise {B C : Type} (m : outcome B) (f : B -> outcome C) (e : exn) :
  (m ≫= f) = Raise e -> m = Raise e \/ exists b, m = Done b /\ f b = Raise e.
Proof.
  destruct m as [b|e'|]; simpl; intros Hm; try discriminate.
  - right. eauto.
  - left. congruence.
Qed.

(** A property kept by every iteration holds when the loop exits, and the
    open set is then empty. *)
Lemma search_Done (E : env) (P : state -> Prop) :
  (forall st st', P st -> iteration E st = Done st' -> P st') ->
  forall fuel st st',
    P st -> search fuel E st = Done st' -> P st' /\ active st' = [].
Proof.
  intros Hstep. induction fuel as [|fuel IH]; intros st st' HP Hs; simpl in Hs.
  - discriminate.
  - destruct (Z.of_nat (length (active st)) =? 0) eqn:Hz.
    + injection Hs as <-. split; [exact HP|].
      apply Z.eqb_eq in Hz. destruct (active st); [reflexivity | simpl in Hz; lia].
    + destruct (Z.of_nat (length (active st)) >? 500); [discriminate|].
      apply bind_Done in Hs as (st1 & Hit & Hs). eauto.
Qed.

(** The exceptions of the loop are the size cap and those of an iteration. *)
Lemma search_Raise (E : env) (P : state -> Prop) (Q : exn -> Prop) :
  Q ImpossibleToFindRoute ->
  (forall st st', P st -> iteration E st = Done st' -> P st') ->
  (forall st e, P st -> active st <> [] -> iteration E st = Raise e -> Q e) ->
  forall fuel st e, P st -> search fuel E st = Raise e -> Q e.
Proof.
  intros HQ Hstep Hraise.
  induction fuel as [|fuel IH]; intros st e HP Hs; simpl in Hs.
  - discriminate.
  - destruct (Z.of_nat (length (active st)) =? 0) eqn:Hz; [discriminate|].
    destruct (Z.of_nat (length (active st)) >? 500).
    + injection Hs as <-. exact HQ.
    + apply bind_Raise in Hs as [Hs|(st1 & Hit & Hs)].
      * apply (Hraise st); auto. intros Hnil. rewrite Hnil in Hz. discriminate.
      * eauto.
Qed.


Lemma no_truthy_feasible (E : env) (parent : Route) :
  (Z.of_nat (length (filter (fun tab => truthy tab = true)
                            (all_intersections E parent))) =? 0) = true ->
  feasible E parent.
Proof.
  unfold all_intersections, feasible. intros Hz. apply Z.eqb_eq in Hz.
  induction (e_obsDic_xy E) as [|obs l IH]; [constructor|].
  simpl in Hz. rewrite filter_cons in Hz.
  destruct (intersectroute obs parent) as [|p tab] eqn:Hi; simpl in Hz.
  - constructor; [exact Hi|]. apply IH.
    destruct (decide (false = true)); [discriminate | exact Hz].
  - destruct (decide (true = true)); [simpl in Hz; lia | congruence].
Qed.

Lemma update_incumbent_Done (E : env) (st st' : state) (parent : Route) :
  update_incumbent E st parent = Done st' ->
  active st' = active st /\
  ((incflag st = 0 /\ incflag st' = 1 /\ incumbent st' = IncRoute parent) \/
   (incflag st <> 0 /\ incflag st' = incflag st /\
    (incumbent st' = IncRoute parent \/ incumbent st' = incumbent st))).
Proof.
  unfold update_incumbent. intros Hu.
  destruct (incflag st =? 0) eqn:Hf.
  { injection Hu as <-. apply Z.eqb_eq in Hf. simpl. auto. }
  apply Z.eqb_neq in Hf.
  destruct (optimizationpriority E =? 0).
  { apply bind_Done in Hu as (inc & _ & Hu).
    destruct (flt (distance parent) (distance inc)); injection Hu as <-;
      simpl; auto 6. }
  destruct (optimizationpriority E =? 1).
  { apply bind_Done in Hu as (inc & _ & Hu).
    destruct (flt (time parent) (time inc)); injection Hu as <-;
      simpl; auto 6. }
  injection Hu as <-. auto 6.
Qed.

Lemma branch_on_Done (E : env) (st st' : state) (parent : Route)
    (tabs : list (list (Z * Z))) :
  branch_on E st parent tabs = Done st' ->
  incflag st' = incflag st /\ incumbent st' = incumbent st /\
  exists routeL routeR, active st' = active st ++ [routeL] ++ [routeR].
Proof.
  unfold branch_on. intros Hb.
  apply bind_Done in Hb as (branch & _ & Hb).
  apply bind_Done in Hb as (intersectTab & _ & Hb).
  apply bind_Done in Hb as (obs & _ & Hb).
  apply bind_Done in Hb as (first & _ & Hb).
  injection Hb as <-. simpl. eauto.
Qed.

(** One iteration, by cases: fathomed, recorded as feasible, or branched. *)
Lemma iteration_Done (E : env) (st st' : state) :
  iteration E st = Done st' ->
  exists parent rest,
    select_parent (active st) = Done (parent, rest) /\
    let st1 := mkState rest (incflag st) (incumbent st) in
    (fathomed E st1 parent = Done true /\ st' = st1) \/
    (fathomed E st1 parent = Done false /\ feasible E parent /\
     update_incumbent E st1 parent = Done st') \/
    (fathomed E st1 parent = Done false /\
     branch_on E st1 parent (all_intersections E parent) = Done st').
Proof.
  unfold iteration. intros Hi.
  apply bind_Done in Hi as ([parent rest] & Hsel & Hi).
  apply bind_Done in Hi as (skip & Hf & Hi).
  exists parent, rest. split; [exact Hsel|]. simpl.
  destruct skip.
  - injection Hi as <-. left. auto.
  - right. unfold expand in Hi.
    destruct (Z.of_nat (length (filter _ (all_intersections E parent))) =? 0) eqn:Hz.
    + left. auto using no_truthy_feasible.
    + right. auto.
Qed.

Lemma iteration_flag_ok (E : env) (st st' : state) :
  flag_ok st -> iteration E st = Done st' -> flag_ok st' /\ pending st'.
Proof.
  intros Hok Hi. apply iteration_Done in Hi as (parent & rest & _ & Hi).
  simpl in Hi. destruct Hi as [[Hf ->]|[(_ & _ & Hu)|[_ Hb]]].
  - unfold fathomed in Hf. simpl in Hf. unfold flag_ok, pending. simpl.
    destruct Hok as [H0|H1].
    + rewrite H0 in Hf. simpl in Hf. discriminate.
    + split; [right; exact H1|]. destruct H1 as [H1 _]. intros H0. lia.
  - apply update_incumbent_Done in Hu as [_ Hu]. simpl in Hu.
    unfold flag_ok, pending.
    destruct Hu as [(_ & H1 & Hinc)|(Hne & Heq & Hinc)].
    + split; [right; eauto | intros H0; lia].
    + destruct Hok as [H0|[H1 [r Hr]]]; [contradiction|].
      rewrite Heq, H1. split; [|intros H0; lia].
      right. split; [reflexivity|].
      destruct Hinc as [->| ->]; eauto.
  - apply branch_on_Done in Hb as (Hfl & Hinc & routeL & routeR & Hact).
    simpl in *. unfold flag_ok, pending. rewrite Hfl, Hinc, Hact. split.
    + exact Hok.
    + intros _ Hnil. apply app_eq_nil in Hnil as [_ Hnil]. discriminate.
Qed.

Lemma iteration_feasible (E : env) (st st' : state) :
  inc_feasible E st -> iteration E st = Done st' -> inc_feasible E st'.
Proof.
  intros Hok Hi. apply iteration_Done in Hi as (parent & rest & _ & Hi).
  simpl in Hi. destruct Hi as [[_ ->]|[(_ & Hfeas & Hu)|[_ Hb]]].
  - exact Hok.
  - apply update_incumbent_Done in Hu as [_ Hu]. simpl in Hu.
    intros r Hr.
    destruct Hu as [(_ & _ & Hinc)|(_ & _ & [Hinc|Hinc])].
    + rewrite Hinc in Hr. injection Hr as <-. exact Hfeas.
    + rewrite Hinc in Hr. injection Hr as <-. exact Hfeas.
    + apply Hok. rewrite <- Hinc. exact Hr.
  - apply branch_on_Done in Hb as (_ & Hinc & _). simpl in Hinc.
    intros r Hr. apply Hok. rewrite <- Hinc. exact Hr.
Qed.

(** *** No attribute error *)


Lemma select_parent_raises (act : list Route) :
  raises_in not_attr (select_parent act).
Proof. unfold select_parent, not_attr. raises_steps. Qed.

Lemma choose_branch_raises (E : env) (parent : Route)
    (tabs : list (list (Z * Z))) :
  raises_in not_attr (choose_branch E parent tabs).
Proof.
  unfold choose_branch, scan_ties, scan_step, scan_obstacle, not_attr. raises_steps.
  apply raises_in_foldlM. intros acc i. raises_steps.
  apply raises_in_foldlM. intros dl p. raises_steps.
Qed.

Lemma branch_on_raises (E : env) (st : state) (parent : Route)
    (tabs : list (list (Z * Z))) :
  raises_in not_attr (branch_on E st parent tabs).
Proof.
  unfold branch_on.
  apply raises_in_bind; [apply choose_branch_raises|]. intros branch _.
  unfold not_attr. raises_steps.
Qed.

Lemma iteration_raises (E : env) (st : state) :
  flag_ok st -> raises_in not_attr (iteration E st).
Proof.
  intros Hok. unfold iteration.
  apply raises_in_bind; [apply select_parent_raises|].
  intros [parent rest] _.
  assert (incflag st = 0 \/ exists r, incflag st = 1 /\ incumbent st = IncRoute r)
    as Hflag by (destruct Hok as [?|[? [r ?]]]; eauto).
  apply raises_in_bind.
  - unfold fathomed. simpl.
    destruct Hflag as [->|(r & -> & ->)]; simpl; raises_steps.
  - intros skip _. destruct skip; [apply raises_in_Done|].
    unfold expand.
    destruct (_ =? 0); [|apply branch_on_raises].
    unfold update_incumbent. simpl.
    destruct Hflag as [->|(r & -> & ->)]; simpl; raises_steps.
Qed.

(** [n] turns of the loop use up [n] units of the budget. *)
Lemma search_nsteps (E : env) (n fuel : nat) (st0 st : state) :
  nsteps (loop_step E) n st0 st -> search (n + fuel) E st0 = search fuel E st.
Proof.
  induction 1 as [st|n st0 st1 st [Hne Hcap Hit] _ IH]; [reflexivity|].
  simpl.
  replace (Z.of_nat (length (active st0)) =? 0) with false.
  2:{ symmetry. apply Z.eqb_neq. destruct (active st0); [congruence | simpl; lia]. }
  replace (Z.of_nat (length (active st0)) >? 500) with false
    by (symmetry; rewrite Z.gtb_ltb; apply Z.ltb_ge; lia).
  rewrite Hit. exact IH.
Qed.

Lemma search_cap (E : env) (fuel : nat) (st : state) :
  500 < Z.of_nat (length (active st)) ->
  search (S fuel) E st = Raise ImpossibleToFindRoute.
Proof.
  intros Hlen. simpl.
  replace (Z.of_nat (length (active st)) =? 0) with false
    by (symmetry; apply Z.eqb_neq; lia).
  replace (Z.of_nat (length (active st)) >? 500) with true
    by (symmetry; apply Z.gtb_lt; lia).
  reflexivity.
Qed.

Lemma search_feasible (E : env) (fuel : nat) (st st' : state) :
  inc_feasible E st -> search fuel E st = Done st' -> inc_feasible E st'.
Proof.
  intros Hok Hs.
  apply (search_Done E (inc_feasible E) (iteration_feasible E) fuel st st' Hok Hs).
Qed.

Lemma search_flag_ok (E : env) (fuel : nat) (st st' : state) :
  flag_ok st -> pending st -> search fuel E st = Done st' ->
  incflag st' = 1 /\ exists r, incumbent st' = IncRoute r.
Proof.
  intros Hok Hpend Hs.
  destruct (search_Done E (fun s => flag_ok s /\ pending s)) with (1 := fun s s' (H : flag_ok s /\ pending s) => iteration_flag_ok E s s' (proj1 H))
    (fuel := fuel) (st := st) (st' := st') as [[Hok' Hpend'] Hnil]; auto.
  destruct Hok' as [H0|H1]; [|exact H1].
  exfalso. apply (Hpend' H0 Hnil).
Qed.

Lemma search_not_attr (E : env) (fuel : nat) (st : state) :
  flag_ok st -> raises_in not_attr (search fuel E st).
Proof.
  intros Hok e Hs.
  apply (search_Raise E flag_ok not_attr) with (fuel := fuel) (st := st); auto.
  - unfold not_attr. congruence.
  - intros s s' Hs1 Hi. apply (iteration_flag_ok E s s' Hs1 Hi).
  - intros s e' Hs1 _ Hi. apply (iteration_raises E s Hs1 e' Hi).
Qed.

Lemma py_set_last_app {A : Type} (pre : list A) (x d : A) :
  py_set_last (pre ++ [x]) d = Done (pre ++ [d]).
Proof.
  unfold py_set_last. destruct (pre ++ [x]) as [|a l] eqn:Hl.
  - destruct pre; discriminate.
  - rewrite <- Hl. f_equal. rewrite length_app. simpl.
    replace (pred (length pre + 1)) with (length pre + 0)%nat by lia.
    rewrite insert_app_r. reflexivity.
Qed.

Lemma py_set_last_Done {A : Type} (l act : list A) (d : A) :
  py_set_last l d = Done act -> act <> [].
Proof.
  destruct l as [|a l]; simpl; [discriminate|]. intros Hs. injection Hs as <-.
  intros Hnil. apply (f_equal length) in Hnil. rewrite length_insert in Hnil.
  discriminate.
Qed.

(** Line 134 raises exactly when the airspeed is zero. *)
Lemma direct_route_cases (E : env) :
  (feq (e_TAS E) fzero = true /\ direct_route E = Raise ZeroDivisionError) \/
  (feq (e_TAS E) fzero = false /\ exists directrt, direct_route E = Done directrt).
Proof.
  unfold direct_route, py_truediv.
  destruct (parse (e_origin E) (e_destination E)) as [[distance heading] wypts].
  destruct (feq (e_TAS E) fzero); simpl; eauto.
Qed.

(** *** The returned route *)

(** C1 -- feasibility of the output.  Whenever [det_path_planning] returns,
    the waypoints it returns are those of a route (the final incumbent) for
    which [intersectroute] is empty for every obstacle of the run. *)
Theorem C1_returned_route_is_obstacle_free
    (fuel : nat) (active0 : list Route)
    (lat0 lon0 altitude TAS0 latdest londest : F) (inputObs : list (list Pt))
    (wl : list Pt) (act' : list Route) :
  det_path_planning fuel active0 lat0 lon0 altitude TAS0 latdest londest inputObs
    = Done (wl, act') ->
  exists inc : Route,
    wl = map (fun element => XY2LatLon (fst element) (snd element)) (waypoints inc) /\
    Forall (fun obs => intersectroute obs inc = [])
      (e_obsDic_xy (make_env 0 0 lat0 lon0 TAS0 latdest londest inputObs)).
Proof.
  unfold det_path_planning, det_path_planning_with. intros Hd.
  set (E := make_env 0 0 lat0 lon0 TAS0 latdest londest inputObs) in *.
  apply bind_Done in Hd as (directrt & _ & Hd).
  apply bind_Done in Hd as (act & _ & Hd).
  apply bind_Done in Hd as (st & Hs & Hd).
  apply bind_Done in Hd as (wl' & Hw & Hd).
  injection Hd as -> _.
  apply search_feasible in Hs; [|intros r Hr; discriminate].
  unfold waypoint_latlon in Hw.
  apply bind_Done in Hw as (inc & Hinc & Hw).
  destruct (incumbent st) as [|r] eqn:Hi; simpl in Hinc; [discriminate|].
  injection Hinc as ->.
  exists inc. split; [|apply Hs, Hi].
  destruct (waypoints inc); [discriminate|]. injection Hw as <-. reflexivity.
Qed.

(** C9 -- a normal exit of the loop implies an incumbent.  From the state
    the function starts the loop in, a normal exit leaves [incflag = 1] and
    in [incumbent] a route that hits no obstacle; the function never fails
    with the attribute error of the [float('inf')] placeholder. *)
Theorem C9_exit_implies_incumbent
    (fuel : nat) (active0 : list Route)
    (lat0 lon0 altitude TAS0 latdest londest : F) (inputObs : list (list Pt)) :
  let E := make_env 0 0 lat0 lon0 TAS0 latdest londest inputObs in
  (forall directrt act st',
      direct_route E = Done directrt ->
      py_set_last active0 directrt = Done act ->
      search fuel E (mkState act 0 IncInf) = Done st' ->
      incflag st' = 1 /\ exists r, incumbent st' = IncRoute r /\ feasible E r) /\
  det_path_planning fuel active0 lat0 lon0 altitude TAS0 latdest londest inputObs
    <> Raise AttributeError.
Proof.
  intros E. split.
  - intros directrt act st' _ Hset Hs.
    destruct (search_flag_ok E fuel (mkState act 0 IncInf) st') as [Hf [r Hr]]; auto.
    + left. reflexivity.
    + intros _. simpl. apply (py_set_last_Done _ _ _ Hset).
    + split; [exact Hf|]. exists r. split; [exact Hr|].
      apply (search_feasible E fuel (mkState act 0 IncInf) st'); auto.
      intros r' Hr'. discriminate.
  - unfold det_path_planning, det_path_planning_with. fold E. intros Hd.
    apply bind_Raise in Hd as [Hd|(directrt & _ & Hd)].
    { destruct (direct_route_cases E) as [[_ Hz]|[_ [r Hr]]]; congruence. }
    apply bind_Raise in Hd as [Hd|(act & Hset & Hd)].
    { destruct active0; simpl in Hd; discriminate. }
    apply bind_Raise in Hd as [Hd|(st' & Hs & Hd)].
    { apply search_not_attr in Hd; [apply Hd; reflexivity | left; reflexivity]. }
    apply search_flag_ok in Hs as [_ [r Hr]].
    + apply bind_Raise in Hd as [Hd|(wl & _ & Hd)]; [|discriminate].
      unfold waypoint_latlon in Hd. rewrite Hr in Hd. simpl in Hd.
      destruct (waypoints r); discriminate.
    + left. reflexivity.
    + intros _. simpl. apply (py_set_last_Done _ _ _ Hset).
Qed.

(** *** The shared open set *)

(** C10 -- the open set is the shared list [Route.active].  Once the
    direct route is built (line 134 has not raised), a call made while the
    list is empty fails with an index error at the seed assignment; a call
    made while it is not overwrites the last slot with the seed and keeps
    the entries before it, and the search starts from that list.  In every
    case the entry that occupied the slot has no influence on the result. *)
Theorem C10_shared_open_set
    (fuel : nat) (lat0 lon0 altitude TAS0 latdest londest : F)
    (inputObs : list (list Pt)) :
  let E := make_env 0 0 lat0 lon0 TAS0 latdest londest inputObs in
  (forall directrt,
      direct_route E = Done directrt ->
      det_path_planning fuel [] lat0 lon0 altitude TAS0 latdest londest inputObs
        = Raise IndexError /\
      (forall pre x,
          py_set_last (pre ++ [x]) directrt = Done (pre ++ [directrt]) /\
          det_path_planning fuel (pre ++ [x])
              lat0 lon0 altitude TAS0 latdest londest inputObs
            = (st ← search fuel E (mkState (pre ++ [directrt]) 0 IncInf);
               wl ← waypoint_latlon (incumbent st);
               Done (wl, active st)))) /\
  (forall pre x y,
      det_path_planning fuel (pre ++ [x])
          lat0 lon0 altitude TAS0 latdest londest inputObs
      = det_path_planning fuel (pre ++ [y])
          lat0 lon0 altitude TAS0 latdest londest inputObs).
Proof.
  intros E. split.
  - intros directrt Hdir.
    unfold det_path_planning, det_path_planning_with. fold E. rewrite Hdir.
    split; [reflexivity|].
    intros pre x. split; [apply py_set_last_app|].
    simpl. rewrite py_set_last_app. reflexivity.
  - intros pre x y.
    unfold det_path_planning, det_path_planning_with. fold E.
    destruct (direct_route E) as [directrt|e|]; [|reflexivity..].
    simpl. rewrite !py_set_last_app. reflexivity.
Qed.

(** The list a returning call leaves behind is empty: the next call finds
    no slot to overwrite. *)
Lemma store_after_return
    (fuel : nat) (active0 : list Route)
    (lat0 lon0 altitude TAS0 latdest londest : F) (inputObs : list (list Pt))
    (wl : list Pt) (act' : list Route) :
  det_path_planning fuel active0 lat0 lon0 altitude TAS0 latdest londest inputObs
    = Done (wl, act') ->
  act' = [].
Proof.
  unfold det_path_planning, det_path_planning_with. intros Hd.
  apply bind_Done in Hd as (directrt & _ & Hd).
  apply bind_Done in Hd as (act & _ & Hd).
  apply bind_Done in Hd as (st & Hs & Hd).
  apply bind_Done in Hd as (wl' & _ & Hd).
  injection Hd as _ <-.
  apply (search_Done _ (fun _ => True)) in Hs; tauto.
Qed.

(** X9 -- a call that follows a returning call, with nothing put into
    [Route.active] in between, fails: at the division of line 134 when its
    airspeed is zero, and at the seed assignment otherwise. *)
Lemma call_after_return
    (fuel fuel' : nat) (active0 : list Route)
    (lat0 lon0 altitude TAS0 latdest londest : F) (inputObs : list (list Pt))
    (lat0' lon0' altitude' TAS0' latdest' londest' : F)
    (inputObs' : list (list Pt))
    (wl : list Pt) (act' : list Route) :
  det_path_planning fuel active0 lat0 lon0 altitude TAS0 latdest londest inputObs
    = Done (wl, act') ->
  det_path_planning fuel' act' lat0' lon0' altitude' TAS0' latdest' londest' inputObs'
    = Raise (if feq TAS0' fzero then ZeroDivisionError else IndexError).
Proof.
  intros Hd. apply store_after_return in Hd as ->.
  unfold det_path_planning, det_path_planning_with.
  destruct (direct_route_cases
              (make_env 0 0 lat0' lon0' TAS0' latdest' londest' inputObs'))
    as [[Hz ->]|[Hz [directrt ->]]]; simpl in Hz; rewrite Hz; reflexivity.
Qed.

End DriverFacts.


(** ** The exceptions of the search *)

Section Totality.
Context `{C : ToolsContract}.

Lemma foldlM_total {A B : Type} (f : A -> B -> outcome A)
    (Inv : nat -> A -> Prop) (l : list B) :
  (forall n acc x, l !! n = Some x -> Inv n acc ->
     exists acc', f acc x = Done acc' /\ Inv (S n) acc') ->
  forall acc, Inv O acc ->
    exists acc', foldlM f acc l = Done acc' /\ Inv (length l) acc'.
Proof.
  revert Inv. induction l as [|x l IH]; intros Inv Hstep acc Hacc; simpl.
  - eauto.
  - destruct (Hstep O acc x eq_refl Hacc) as (acc1 & -> & Hacc1). simpl.
    apply (IH (fun n => Inv (S n))); [|exact Hacc1].
    intros n a y Hy. apply (Hstep (S n)). exact Hy.
Qed.

Lemma py_nth_total {A : Type} (l : list A) (i : Z) :
  0 <= i < Z.of_nat (length l) -> exists x, py_nth l i = Done x.
Proof.
  intros Hi. unfold py_nth.
  replace (i <? 0) with false by (symmetry; apply Z.ltb_ge; lia).
  destruct (lookup_lt_is_Some_2 l (Z.to_nat i)) as [x Hx]; [lia|].
  rewrite Hx. eauto.
Qed.

Lemma select_parent_total (act : list Route) :
  act <> [] -> exists parent rest, select_parent act = Done (parent, rest).
Proof.
  intros Hne. unfold select_parent.
  destruct (Z.of_nat (length act) =? 1).
  - unfold py_pop_last. apply last_is_Some in Hne as [x ->]. eauto.
  - destruct (py_min_elem flt (map deviation act)) as (m & -> & Hin).
    { destruct act; [congruence | discriminate]. }
    simpl.
    destruct (py_index_spec feq m (map deviation act)) as (i & d & -> & Hl & _).
    { exists m. split; [exact Hin | apply feq_reflexive]. }
    simpl. unfold py_pop_at.
    rewrite list_lookup_fmap in Hl.
    destruct (act !! i); [eauto | discriminate].
Qed.

Lemma fold_min_elem (ss : list Z) (s : Z) :
  fold_left Z.min ss s ∈ s :: ss.
Proof.
  revert s. induction ss as [|a ss IH]; intros s; simpl; [left|].
  specialize (IH (Z.min s a)).
  apply elem_of_cons in IH as [->|IH]; [|right; right; exact IH].
  destruct (Z.min_spec s a) as [[_ ->]|[_ ->]]; [left | right; left].
Qed.

Lemma first_seg_Some (tab : list (Z * Z)) (m : Z) :
  first_seg tab = Some m -> exists k, (m, k) ∈ tab.
Proof.
  unfold first_seg. intros Hf.
  destruct (map fst tab) as [|s ss] eqn:Hm; [discriminate|].
  injection Hf as <-.
  pose proof (fold_min_elem ss s) as Hin. rewrite <- Hm in Hin.
  apply list_elem_of_fmap in Hin as ([s' k] & Hs & Hin). simpl in Hs.
  exists k. rewrite Hs. exact Hin.
Qed.

Lemma first_seg_truthy (tab : list (Z * Z)) :
  tab <> [] -> exists m, first_seg tab = Some m.
Proof. destruct tab as [|p tab]; [congruence|]. intros _. unfold first_seg. simpl. eauto. Qed.

Lemma indices_from_spec (firstseg : list (option Z)) (m : Z) :
  forall n i, i ∈ indices_from n firstseg m ->
    exists j, i = (n + j)%nat /\ firstseg !! j = Some (Some m).
Proof.
  induction firstseg as [|x xs IH]; intros n i Hi; simpl in Hi.
  - inversion Hi.
  - destruct (seg_eq x m) eqn:Hx.
    + apply elem_of_cons in Hi as [->|Hi].
      * exists O. split; [lia|]. simpl. destruct x as [s|]; simpl in Hx; [|discriminate].
        apply Z.eqb_eq in Hx as ->. reflexivity.
      * apply IH in Hi as (j & -> & Hj). exists (S j). split; [lia | exact Hj].
    + apply IH in Hi as (j & -> & Hj). exists (S j). split; [lia | exact Hj].
Qed.

Lemma indices_from_nonempty (firstseg : list (option Z)) (m : Z) (n : nat) :
  Some m ∈ firstseg -> indices_from n firstseg m <> [].
Proof.
  revert n. induction firstseg as [|x xs IH]; intros n Hin; [inversion Hin|].
  simpl. destruct (seg_eq x m) eqn:Hx; [discriminate|].
  apply elem_of_cons in Hin as [<-|Hin]; [|apply IH, Hin].
  simpl in Hx. rewrite Z.eqb_refl in Hx. discriminate.
Qed.

(** An obstacle whose first segment is [m] has a table of in-range pairs. *)
Lemma tab_lookup (E : env) (parent : Route) (i : nat) (m : Z) :
  firstseg_of (all_intersections E parent) !! i = Some (Some m) ->
  exists obs tab,
    e_obsDic_xy E !! i = Some obs /\
    all_intersections E parent !! i = Some tab /\
    tab = intersectroute obs parent /\ tab <> [] /\ first_seg tab = Some m.
Proof.
  unfold firstseg_of, all_intersections. intros Hi.
  rewrite !list_lookup_fmap in Hi.
  destruct (e_obsDic_xy E !! i) as [obs|] eqn:Ho; simpl in Hi; [|discriminate].
  injection Hi as Hi.
  exists obs, (intersectroute obs parent). rewrite list_lookup_fmap, Ho. simpl.
  repeat split; auto. intros Hnil. rewrite Hnil in Hi. discriminate.
Qed.

Lemma scan_obstacle_total (obs : ObsT) (parent : Route) (p q : Pt) (refpt : Pos)
    (distlist : list F) :
  intersectroute obs parent <> [] ->
  exists dl, scan_obstacle obs p q refpt distlist (intersectroute obs parent) = Done dl
             /\ dl <> [].
Proof.
  intros Hne. unfold scan_obstacle.
  destruct (foldlM_total
    (fun dl (pr : Z * Z) =>
       a ← py_nth (vert obs) (snd pr);
       b ← py_nth (vert obs) (snd pr + 1);
       Done (dl ++ [Pos_length (Pos_sub (intersectionpt a b p q) refpt)]))
    (fun n dl => (0 < n)%nat -> dl <> [])
    (intersectroute obs parent)) with (acc := distlist) as (dl & Hdl & Hinv).
  - intros n acc [s k] Hx _.
    apply list_elem_of_lookup_2, intersectroute_in_range in Hx as (_ & _ & Hk0 & Hk1).
    simpl.
    destruct (py_nth_total (vert obs) k) as [a ->]; [lia|].
    destruct (py_nth_total (vert obs) (k + 1)) as [b ->]; [lia|].
    simpl. eexists. split; [reflexivity|]. intros _ Hnil.
    apply app_eq_nil in Hnil as [_ Hnil]. discriminate.
  - lia.
  - exists dl. split; [exact Hdl|]. apply Hinv.
    destruct (intersectroute obs parent); [congruence | simpl; lia].
Qed.

Lemma scan_ties_total (E : env) (parent : Route) (p q : Pt) (refpt : Pos)
    (m : Z) (indices : list nat) :
  (forall i, i ∈ indices ->
     firstseg_of (all_intersections E parent) !! i = Some (Some m)) ->
  exists distlist options,
    scan_ties E (all_intersections E parent) p q refpt indices
      = Done (distlist, options) /\
    length options = length indices.
Proof.
  intros Hidx. unfold scan_ties.
  destruct (foldlM_total
    (scan_step E (all_intersections E parent) p q refpt)
    (fun n acc => length (snd acc) = n) indices) with (acc := ([], []) : list F * list F)
    as ([distlist options] & Hs & Hlen).
  - intros n [dl opts] i Hi Hn. simpl in Hn. unfold scan_step.
    apply list_elem_of_lookup_2, Hidx, tab_lookup in Hi
      as (obs & tab & -> & -> & -> & Hne & _).
    simpl.
    destruct (scan_obstacle_total obs parent p q refpt dl Hne) as (dl' & -> & Hdl').
    simpl.
    destruct (py_min_elem flt dl' Hdl') as (mn & -> & _). simpl.
    eexists. split; [reflexivity|]. simpl. rewrite length_app. simpl. lia.
  - reflexivity.
  - exists distlist, options. split; [exact Hs | exact Hlen].
Qed.

Lemma choose_branch_total (E : env) (parent : Route) :
  (exists tab, tab ∈ all_intersections E parent /\ tab <> []) ->
  exists branch tab,
    choose_branch E parent (all_intersections E parent) = Done branch /\
    all_intersections E parent !! branch = Some tab /\ tab <> [].
Proof.
  intros (tab0 & Hin0 & Hne0). unfold choose_branch.
  set (tabs := all_intersections E parent) in *.
  set (firstseg := firstseg_of tabs).
  destruct (first_seg_truthy tab0 Hne0) as [m0 Hm0].
  assert (Some m0 ∈ firstseg) as Hfs0.
  { unfold firstseg, firstseg_of. rewrite <- Hm0.
    apply (list_elem_of_fmap_2 first_seg). exact Hin0. }
  destruct (py_min_elem Z.ltb (omap id firstseg)) as (m & -> & Hm).
  { intros Hnil. assert (m0 ∈ omap id firstseg) as Hx.
    { apply list_elem_of_omap. exists (Some m0). split; [exact Hfs0 | reflexivity]. }
    rewrite Hnil in Hx. inversion Hx. }
  simpl.
  apply list_elem_of_omap in Hm as (y & Hy & Hid). simpl in Hid. subst y.
  destruct (py_count seg_eq m firstseg >? 1).
  - (* several obstacles share the first segment *)
    set (indices := indices_from O firstseg m).
    assert (forall i, i ∈ indices -> firstseg !! i = Some (Some m)) as Hidx.
    { intros i Hi. apply indices_from_spec in Hi as (j & -> & Hj). exact Hj. }
    pose proof (list_elem_of_lookup_1 _ _ Hy) as [i0 Hi0].
    destruct (tab_lookup E parent i0 m Hi0) as (obs0 & t0 & _ & _ & -> & _ & Hf0).
    apply first_seg_Some in Hf0 as [k0 Hk0].
    apply intersectroute_in_range in Hk0 as (Hs0 & Hs1 & _).
    destruct (py_nth_total (waypoints parent) m) as [routpt1 ->]; [lia|].
    destruct (py_nth_total (waypoints parent) (m + 1)) as [routpt2 ->]; [lia|].
    simpl.
    destruct (scan_ties_total E parent routpt1 routpt2 (mkPos routpt1) m indices Hidx)
      as (distlist & options & Hscan & Hlen).
    fold tabs in Hscan. rewrite Hscan. simpl.
    assert (indices <> []) as Hine by (apply indices_from_nonempty, Hy).
    destruct (py_min_elem flt options) as (mo & -> & Hmo).
    { intros Hnil. rewrite Hnil in Hlen. destruct indices; [congruence | discriminate]. }
    simpl.
    destruct (py_index_spec feq mo options) as (k & o & -> & Hk & _).
    { exists mo. split; [exact Hmo | apply feq_reflexive]. }
    simpl.
    apply lookup_lt_Some in Hk. rewrite Hlen in Hk.
    apply lookup_lt_is_Some_2 in Hk as [branch Hb]. rewrite Hb. simpl.
    apply list_elem_of_lookup_2, Hidx, tab_lookup in Hb
      as (obs & tab & _ & Htab & _ & Hne & _).
    exists branch, tab. auto.
  - (* a single obstacle has it *)
    destruct (py_index_spec seg_eq m firstseg) as (branch & y & -> & Hb & Heq & _).
    { exists (Some m). split; [exact Hy | simpl; apply Z.eqb_refl]. }
    destruct y as [s|]; simpl in Heq; [|discriminate].
    apply Z.eqb_eq in Heq as ->.
    apply tab_lookup in Hb as (obs & tab & _ & Htab & _ & Hne & _).
    exists branch, tab. auto.
Qed.

Lemma branch_on_total (E : env) (st : state) (parent : Route) :
  (exists tab, tab ∈ all_intersections E parent /\ tab <> []) ->
  exists st', branch_on E st parent (all_intersections E parent) = Done st'.
Proof.
  intros Hex. unfold branch_on.
  destruct (choose_branch_total E parent Hex) as (branch & tab & -> & Htab & Hne).
  simpl. rewrite Htab. simpl.
  unfold all_intersections in Htab. rewrite list_lookup_fmap in Htab.
  destruct (e_obsDic_xy E !! branch) as [obs|]; [|discriminate]. simpl.
  destruct tab as [|first tab]; [congruence|]. simpl. eauto.
Qed.

Lemma some_truthy {A : Type} (l : list (list A)) :
  (Z.of_nat (length (filter (fun tab => truthy tab = true) l)) =? 0) = false ->
  exists tab, tab ∈ l /\ tab <> [].
Proof.
  intros Hz. apply Z.eqb_neq in Hz.
  destruct (filter (fun tab => truthy tab = true) l) as [|tab f] eqn:Hf;
    [simpl in Hz; lia|].
  assert (tab ∈ filter (fun tab => truthy tab = true) l) as Hin
    by (rewrite Hf; left).
  apply list_elem_of_filter in Hin as [Ht Hin].
  exists tab. split; [exact Hin|]. intros ->. discriminate.
Qed.

(** Under the contract an iteration on a non-empty open set completes. *)
Lemma iteration_total (E : env) (st : state) :
  flag_ok st -> active st <> [] -> exists st', iteration E st = Done st'.
Proof.
  intros Hok Hne. unfold iteration.
  destruct (select_parent_total (active st) Hne) as (parent & rest & ->). simpl.
  assert (incflag st = 0 \/ exists r, incflag st = 1 /\ incumbent st = IncRoute r)
    as Hflag by (destruct Hok as [?|[? [r ?]]]; eauto).
  assert (exists skip, fathomed E (mkState rest (incflag st) (incumbent st)) parent
                       = Done skip) as [skip ->].
  { unfold fathomed. simpl.
    destruct Hflag as [->|(r & -> & ->)]; simpl; [eauto|].
    destruct (optimizationpriority E =? 0); simpl; [eauto|].
    destruct (optimizationpriority E =? 1); simpl; eauto. }
  simpl. destruct skip; [eauto|].
  unfold expand.
  destruct (Z.of_nat (length (filter _ (all_intersections E parent))) =? 0) eqn:Hz.
  - unfold update_incumbent. simpl.
    destruct Hflag as [->|(r & -> & ->)]; simpl; [eauto|].
    destruct (optimizationpriority E =? 0); simpl.
    { destruct (flt (distance parent) (distance r)); eauto. }
    destruct (optimizationpriority E =? 1); simpl; [|eauto].
    destruct (flt (time parent) (time r)); eauto.
  - apply branch_on_total, some_truthy, Hz.
Qed.

(** The loop raises the size-cap exception only, and only at a loop head
    that finds more than 500 open routes. *)
Lemma search_raises_at_cap (E : env) :
  forall fuel st e,
    flag_ok st -> search fuel E st = Raise e ->
    e = ImpossibleToFindRoute /\
    exists n st', nsteps (loop_step E) n st st' /\
                  500 < Z.of_nat (length (active st')).
Proof.
  induction fuel as [|fuel IH]; intros st e Hok Hs; simpl in Hs; [discriminate|].
  destruct (Z.of_nat (length (active st)) =? 0) eqn:Hz; [discriminate|].
  assert (active st <> []) as Hne
    by (intros Hnil; rewrite Hnil in Hz; discriminate).
  destruct (Z.of_nat (length (active st)) >? 500) eqn:Hc.
  - injection Hs as <-. split; [reflexivity|].
    exists O, st. split; [constructor|]. apply Z.gtb_lt in Hc. lia.
  - apply bind_Raise in Hs as [Hs|(st1 & Hit & Hs)].
    + destruct (iteration_total E st Hok Hne) as [st1 Hit]. congruence.
    + destruct (IH st1 e) as [He (n & st' & Hn & Hlen)]; [|exact Hs|].
      { apply (iteration_flag_ok E st st1 Hok Hit). }
      split; [exact He|]. exists (S n), st'. split; [|exact Hlen].
      apply nsteps_l with st1; [|exact Hn].
      constructor; [exact Hne | | exact Hit].
      rewrite Z.gtb_ltb in Hc. apply Z.ltb_ge in Hc. exact Hc.
Qed.

(** C2 -- the runaway guard, and the other failures of a call.  At a loop
    head with more than 500 open routes the search raises "Impossible to
    find a route" at once, and a call whose loop reaches such a loop head,
    after any number of turns, ends with that exception.  The imported
    names keeping to their contract, the loop raises nothing else, and
    raises only at such a loop head.  A call can fail in three more ways:
    with a zero division at line 134, exactly when the airspeed is zero;
    with an index error at the seed assignment, when [Route.active] is
    empty at the call; and with a value error at the unpacking of line 470,
    when the final incumbent has no waypoint. *)
Theorem C2_runaway_guard :
  (forall E fuel st,
     500 < Z.of_nat (length (active st)) ->
     search (S fuel) E st = Raise ImpossibleToFindRoute) /\
  (forall fuel active0 lat0 lon0 altitude TAS0 latdest londest inputObs
          directrt act n st,
     let E := make_env 0 0 lat0 lon0 TAS0 latdest londest inputObs in
     direct_route E = Done directrt ->
     py_set_last active0 directrt = Done act ->
     nsteps (loop_step E) n (mkState act 0 IncInf) st ->
     500 < Z.of_nat (length (active st)) ->
     det_path_planning (n + S fuel) active0
         lat0 lon0 altitude TAS0 latdest londest inputObs
       = Raise ImpossibleToFindRoute) /\
  (forall E fuel act e,
     search fuel E (mkState act 0 IncInf) = Raise e ->
     e = ImpossibleToFindRoute /\
     exists n st, nsteps (loop_step E) n (mkState act 0 IncInf) st /\
                  500 < Z.of_nat (length (active st))) /\
  (forall fuel active0 lat0 lon0 altitude TAS0 latdest londest inputObs e,
     let E := make_env 0 0 lat0 lon0 TAS0 latdest londest inputObs in
     det_path_planning fuel active0
         lat0 lon0 altitude TAS0 latdest londest inputObs = Raise e ->
     (e = ZeroDivisionError /\ feq TAS0 fzero = true) \/
     (e = IndexError /\ feq TAS0 fzero = false /\ active0 = []) \/
     (e = ImpossibleToFindRoute /\
      exists directrt act n st,
        direct_route E = Done directrt /\
        py_set_last active0 directrt = Done act /\
        nsteps (loop_step E) n (mkState act 0 IncInf) st /\
        500 < Z.of_nat (length (active st))) \/
     (e = ValueError /\
      exists directrt act st inc,
        direct_route E = Done directrt /\
        py_set_last active0 directrt = Done act /\
        search fuel E (mkState act 0 IncInf) = Done st /\
        incumbent st = IncRoute inc /\ waypoints inc = [])) /\
  (forall fuel active0 lat0 lon0 altitude TAS0 latdest londest inputObs,
     feq TAS0 fzero = true ->
     det_path_planning fuel active0
         lat0 lon0 altitude TAS0 latdest londest inputObs
       = Raise ZeroDivisionError) /\
  (forall fuel lat0 lon0 altitude TAS0 latdest londest inputObs,
     feq TAS0 fzero = false ->
     det_path_planning fuel [] lat0 lon0 altitude TAS0 latdest londest inputObs
       = Raise IndexError).
Proof.
  split; [|split; [|split; [|split; [|split]]]].
  - intros E fuel st Hlen. apply search_cap, Hlen.
  - intros fuel active0 lat0 lon0 altitude TAS0 latdest londest inputObs
           directrt act n st E Hdir Hset Hsteps Hlen.
    unfold det_path_planning, det_path_planning_with. fold E.
    rewrite Hdir. simpl. rewrite Hset. simpl.
    rewrite (search_nsteps E n (S fuel) _ _ Hsteps), (search_cap E fuel st Hlen).
    reflexivity.
  - intros E fuel act e Hs.
    apply (search_raises_at_cap E fuel (mkState act 0 IncInf) e); [|exact Hs].
    left. reflexivity.
  - intros fuel active0 lat0 lon0 altitude TAS0 latdest londest inputObs e E.
    unfold det_path_planning, det_path_planning_with. fold E. intros Hd.
    destruct (direct_route_cases E) as [[Hz Hdir]|[Hz [directrt Hdir]]];
      simpl in Hz; rewrite Hdir in Hd; simpl in Hd.
    { injection Hd as <-. left. auto. }
    right.
    destruct active0 as [|a l].
    { simpl in Hd. injection Hd as <-. left. auto. }
    right.
    assert (py_set_last (a :: l) directrt
            = Done (<[pred (length (a :: l)) := directrt]> (a :: l))) as Hset
      by reflexivity.
    rewrite Hset in Hd. simpl mbind in Hd.
    set (act := <[pred (length (a :: l)) := directrt]> (a :: l)) in *.
    apply bind_Raise in Hd as [Hd|(st' & Hs & Hd)].
    { left.
      destruct (search_raises_at_cap E fuel (mkState act 0 IncInf) e)
        as [He (n & st & Hn & Hlen)]; [left; reflexivity | exact Hd |].
      split; [exact He|]. exists directrt, act, n, st. auto. }
    right.
    apply bind_Raise in Hd as [Hd|(wl & _ & Hd)]; [|discriminate].
    pose proof Hs as Hfl. apply search_flag_ok in Hfl as [_ [inc Hinc]].
    2: { left. reflexivity. }
    2: { intros _. simpl. apply (py_set_last_Done _ _ _ Hset). }
    unfold waypoint_latlon in Hd. rewrite Hinc in Hd. simpl in Hd.
    destruct (waypoints inc) as [|p wps] eqn:Hw; [|discriminate].
    injection Hd as <-. split; [reflexivity|].
    exists directrt, act, st', inc. auto.
  - intros fuel active0 lat0 lon0 altitude TAS0 latdest londest inputObs Hz.
    unfold det_path_planning, det_path_planning_with.
    destruct (direct_route_cases
                (make_env 0 0 lat0 lon0 TAS0 latdest londest inputObs))
      as [[_ ->]|[Hz' _]]; [reflexivity|]. simpl in Hz'. congruence.
  - intros fuel lat0 lon0 altitude TAS0 latdest londest inputObs Hz.
    unfold det_path_planning, det_path_planning_with.
    destruct (direct_route_cases
                (make_env 0 0 lat0 lon0 TAS0 latdest londest inputObs))
      as [[Hz' _]|[_ [directrt ->]]]; [|reflexivity]. simpl in Hz'. congruence.
Qed.

End Totality.

(** ** The tie-break when the tied obstacles meet one segment only *)

Section RunningMin.
Context {A : Type} (lt eq : A -> A -> bool) (L : OrderLaws lt eq).

Local Abbreviation step := (step_min lt).

Lemma eq_incomparable (a b : A) :
  eq a b = true <-> lt a b = false /\ lt b a = false.
Proof.
  split.
  - intros He. split.
    + rewrite (ol_eq_l _ _ L a b b He). apply (ol_irrefl _ _ L).
    + rewrite (ol_eq_r _ _ L a b b He). apply (ol_irrefl _ _ L).
  - intros [Hab Hba]. apply (ol_total _ _ L); assumption.
Qed.

Lemma lt_neg_trans (a b c : A) :
  lt a b = false -> lt b c = false -> lt a c = false.
Proof.
  intros Hab Hbc. destruct (lt a c) eqn:Hac; [|reflexivity].
  destruct (lt b a) eqn:Hba.
  - rewrite (ol_trans _ _ L b a c Hba Hac) in Hbc. discriminate.
  - assert (eq a b = true) as He by (apply (ol_total _ _ L); assumption).
    rewrite (ol_eq_l _ _ L a b c He) in Hac. congruence.
Qed.

Lemma eq_congr (g g' : A) :
  eq g' g = true -> forall x, eq x g' = eq x g.
Proof.
  intros He x.
  pose proof (eq_incomparable x g') as H1. pose proof (eq_incomparable x g) as H2.
  rewrite (ol_eq_r _ _ L g' g x He), (ol_eq_l _ _ L g' g x He) in H1.
  destruct (eq x g'), (eq x g); try reflexivity.
  - symmetry. apply H2, H1. reflexivity.
  - apply H1, H2. reflexivity.
Qed.

Lemma step_assoc (a y b : A) :
  step (step a y) b = step a (step y b).
Proof.
  unfold step_min. destruct (lt y a) eqn:Hya.
  - destruct (lt b y) eqn:Hby.
    + rewrite (ol_trans _ _ L b y a Hby Hya). reflexivity.
    + rewrite Hya. reflexivity.
  - destruct (lt b y) eqn:Hby; [reflexivity|].
    rewrite Hya, (lt_neg_trans b y a Hby Hya). reflexivity.
Qed.

Lemma fold_cons_min (l : list A) :
  forall y a, fold_left step (y :: l) a = step a (fold_left step l y).
Proof.
  induction l as [|z l IH]; intros y a; [reflexivity|].
  change (fold_left step (y :: z :: l) a) with (fold_left step (z :: l) (step a y)).
  rewrite (IH z (step a y)).
  rewrite (IH z y). apply step_assoc.
Qed.

Lemma py_min_app (dl D : list A) (c s : A) :
  py_min lt dl = Done c -> py_min lt D = Done s ->
  py_min lt (dl ++ D) = Done (step c s).
Proof.
  destruct dl as [|x xs]; [discriminate|]. destruct D as [|y l]; [discriminate|].
  simpl. intros Hc Hs. injection Hc as <-. injection Hs as <-. f_equal.
  rewrite fold_left_app. apply (fold_cons_min l y).
Qed.

Lemma running_app (ss : list A) (s : A) :
  forall b, running lt b (ss ++ [s])
            = running lt b ss ++ [step (fold_left step ss b) s].
Proof.
  induction ss as [|x ss IH]; intros b; simpl; [reflexivity|].
  rewrite IH. reflexivity.
Qed.

Lemma running_elem (ss : list A) :
  forall b x, x ∈ running lt b ss -> x ∈ b :: ss.
Proof.
  induction ss as [|s ss IH]; intros b x Hx; simpl in Hx; [inversion Hx|].
  apply elem_of_cons in Hx as [->|Hx].
  - unfold step_min. destruct (lt s b); [right; left | left].
  - apply IH in Hx. apply elem_of_cons in Hx as [->|Hx].
    + unfold step_min. destruct (lt s b); [right; left | left].
    + right. right. exact Hx.
Qed.

Lemma running_last (ss : list A) :
  forall b, fold_left step ss b ∈ b :: running lt b ss.
Proof.
  induction ss as [|s ss IH]; intros b; simpl; [left|].
  right. apply IH.
Qed.

Lemma index_running (rest : list A) :
  forall b g g',
    eq g' g = true -> eq b g = false -> lt b g = false ->
    (forall s, s ∈ rest -> lt s g = false) ->
    py_index eq g' (running lt b rest) = py_index eq g rest.
Proof.
  induction rest as [|s rest IH]; intros b g g' He Hb Hbg Hmin; [reflexivity|].
  simpl. rewrite (eq_congr g g' He). unfold step_min.
  assert (lt s g = false) as Hsg by (apply Hmin; left).
  destruct (eq s g) eqn:Hs.
  - assert (lt s b = true) as Hsb.
    { rewrite (ol_eq_l _ _ L s g b Hs). destruct (lt g b) eqn:Hgb; [reflexivity|].
      rewrite (ol_total _ _ L b g Hbg Hgb) in Hb. discriminate. }
    rewrite Hsb, Hs. reflexivity.
  - destruct (lt s b) eqn:Hsb.
    + rewrite Hs. rewrite (IH s g g'); auto. intros x Hx. apply Hmin. right. exact Hx.
    + rewrite Hb. rewrite (IH b g g'); auto. intros x Hx. apply Hmin. right. exact Hx.
Qed.

(** The first position of the least running minimum is the first position
    of the least element. *)
Lemma index_of_min_running (s1 : A) (rest : list A) :
  py_index eq (fold_left step (running lt s1 rest) s1) (s1 :: running lt s1 rest)
  = py_index eq (fold_left step rest s1) (s1 :: rest).
Proof.
  set (g := fold_left step rest s1).
  set (mc := fold_left step (running lt s1 rest) s1).
  destruct (fold_min_spec lt eq L rest s1) as [Hg Hgmin]. fold g in Hg, Hgmin.
  destruct (fold_min_spec lt eq L (running lt s1 rest) s1) as [Hmc Hmcmin].
  fold mc in Hmc, Hmcmin.
  assert (mc ∈ s1 :: rest) as Hmc'.
  { apply elem_of_cons in Hmc as [->|Hmc]; [left|]. apply (running_elem _ _ _ Hmc). }
  assert (eq mc g = true) as He.
  { apply (ol_total _ _ L).
    - apply Hgmin, Hmc'.
    - apply Hmcmin. apply running_last. }
  simpl. rewrite (eq_congr g mc He).
  destruct (eq s1 g) eqn:Hs1; [reflexivity|].
  rewrite (index_running rest s1 g mc); auto.
  - apply Hgmin. left.
  - intros s Hs. apply Hgmin. right. exact Hs.
Qed.

End RunningMin.

Section TieBreak.
Context `{T : Tools} (Ord : FloatOrder).

Lemma orel_bind {X Y X' Y' : Type} (R : X -> Y -> Prop) (R' : X' -> Y' -> Prop)
    (m1 : outcome X) (m2 : outcome Y) (f1 : X -> outcome X') (f2 : Y -> outcome Y') :
  orel R m1 m2 -> (forall a b, R a b -> orel R' (f1 a) (f2 b)) ->
  orel R' (m1 ≫= f1) (m2 ≫= f2).
Proof.
  destruct m1 as [a|e|], m2 as [b|e'|]; simpl; intros Hm Hf; auto; contradiction.
Qed.

Lemma orel_refl {X : Type} (m : outcome X) : orel (fun a b => a = b) m m.
Proof. destruct m; simpl; auto. Qed.

Lemma foldlM_orel {X Y B : Type} (R : X -> Y -> Prop)
    (f : X -> B -> outcome X) (g : Y -> B -> outcome Y) (l : list B) :
  (forall x a b, x ∈ l -> R a b -> orel R (f a x) (g b x)) ->
  forall a b, R a b -> orel R (foldlM f a l) (foldlM g b l).
Proof.
  induction l as [|x l IH]; intros Hstep a b Hab; simpl; [exact Hab|].
  apply (orel_bind R R).
  - apply Hstep; [left | exact Hab].
  - intros a' b' Hab'. apply IH; [|exact Hab'].
    intros y a0 b0 Hy. apply Hstep. right. exact Hy.
Qed.

(** The inner loop appends to [distlist]. *)
Lemma scan_obstacle_acc (obs : ObsT) (p q : Pt) (refpt : Pos) (tab : list (Z * Z)) :
  forall dl,
    scan_obstacle obs p q refpt dl tab
    = (D ← scan_obstacle obs p q refpt [] tab; Done (dl ++ D)).
Proof.
  unfold scan_obstacle.
  induction tab as [|x tab IH]; intros dl; simpl.
  - rewrite app_nil_r. reflexivity.
  - destruct (py_nth (vert obs) (snd x)) as [a|e|]; simpl; try reflexivity.
    destruct (py_nth (vert obs) (snd x + 1)) as [b|e|]; simpl; try reflexivity.
    rewrite (IH (dl ++ _)), (IH [_]).
    destruct (foldlM _ [] tab) as [D|e|]; simpl; try reflexivity.
    rewrite <- app_assoc. reflexivity.
Qed.

Lemma scan_obstacle_nonempty (obs : ObsT) (p q : Pt) (refpt : Pos)
    (tab : list (Z * Z)) (D : list F) :
  tab <> [] -> scan_obstacle obs p q refpt [] tab = Done D -> D <> [].
Proof.
  destruct tab as [|x tab]; [congruence|]. intros _.
  unfold scan_obstacle. simpl.
  destruct (py_nth (vert obs) (snd x)) as [a|e|]; simpl; try discriminate.
  destruct (py_nth (vert obs) (snd x + 1)) as [b|e|]; simpl; try discriminate.
  fold (scan_obstacle obs p q refpt
          [Pos_length (Pos_sub (intersectionpt a b p q) refpt)] tab).
  rewrite scan_obstacle_acc.
  destruct (scan_obstacle obs p q refpt [] tab); simpl; try discriminate.
  intros HD. injection HD as <-. discriminate.
Qed.

Lemma filter_all {B : Type} (P : B -> Prop) `{!forall x, Decision (P x)} (l : list B) :
  (forall x, x ∈ l -> P x) -> filter P l = l.
Proof.
  induction l as [|x l IH]; intros Hall; [reflexivity|].
  rewrite filter_cons. destruct (decide (P x)) as [_|Hn].
  - f_equal. apply IH. intros y Hy. apply Hall. right. exact Hy.
  - exfalso. apply Hn, Hall. left.
Qed.

(** One obstacle of the outer loop, in both scans. *)
Lemma scan_step_rel (E : env) (tabs : list (list (Z * Z))) (p q : Pt)
    (refpt : Pos) (m : Z) (i : nat) (tab : list (Z * Z))
    (acc : list F * list F) (options' : list F) :
  tabs !! i = Some tab -> tab <> [] ->
  (forall x, x ∈ tab -> fst x = m) ->
  tie_rel acc options' ->
  orel tie_rel (scan_step E tabs p q refpt acc i)
               (closest_step E tabs p q refpt m options' i).
Proof.
  intros Htab Hne Hseg Hrel. unfold scan_step, closest_step.
  rewrite Htab. simpl.
  destruct (e_obsDic_xy E !! i) as [obs|]; simpl; [|reflexivity].
  rewrite (filter_all (fun x : Z * Z => fst x = m) tab Hseg).
  rewrite scan_obstacle_acc.
  destruct (scan_obstacle obs p q refpt [] tab) as [D|e|] eqn:HD; simpl; auto.
  pose proof (scan_obstacle_nonempty obs p q refpt tab D Hne HD) as HDne.
  destruct (py_min_elem flt D HDne) as (s & Hs & _). rewrite Hs. simpl.
  destruct Hrel as [[-> ->]|(c & s1 & rest & Hc & Hopts & -> & Hfold)].
  - simpl. rewrite Hs. simpl. right. exists s, s, []. simpl. auto.
  - rewrite (py_min_app flt feq Ord (fst acc) D c s Hc Hs). simpl.
    right. exists (step_min flt c s), s1, (rest ++ [s]). simpl.
    split; [apply (py_min_app flt feq Ord (fst acc) D c s Hc Hs)|].
    split; [|split].
    + rewrite Hopts, running_app, <- Hfold. reflexivity.
    + reflexivity.
    + rewrite fold_left_app, <- Hfold. reflexivity.
Qed.

(** X1 -- where the driver meets the specification's tie-break: several
    obstacles share the minimal first segment [m], and every intersection
    tabulated for them lies on segment [m].  Then the driver selects the obstacle
    whose intersection with segment [m] is closest to the segment's start
    (the first such obstacle, should several be equally close); carrying
    [distlist] from one obstacle to the next does not change the choice. *)
Theorem tie_break_on_one_segment (E : env) (parent : Route)
    (tabs : list (list (Z * Z))) (m : Z) :
  py_min Z.ltb (omap id (firstseg_of tabs)) = Done m ->
  py_count seg_eq m (firstseg_of tabs) > 1 ->
  (forall i tab x,
      firstseg_of tabs !! i = Some (Some m) -> tabs !! i = Some tab ->
      x ∈ tab -> fst x = m) ->
  choose_branch E parent tabs = closest_on_segment E parent tabs.
Proof.
  intros Hm Hcount Hseg. unfold choose_branch, closest_on_segment.
  rewrite Hm. simpl.
  replace (py_count seg_eq m (firstseg_of tabs) >? 1) with true
    by (symmetry; apply Z.gtb_lt; lia).
  destruct (py_nth (waypoints parent) m) as [routpt1|e|]; simpl; try reflexivity.
  destruct (py_nth (waypoints parent) (m + 1)) as [routpt2|e|]; simpl; try reflexivity.
  set (indices := indices_from O (firstseg_of tabs) m).
  assert (orel tie_rel
            (scan_ties E tabs routpt1 routpt2 (mkPos routpt1) indices)
            (foldlM (closest_step E tabs routpt1 routpt2 (mkPos routpt1) m) [] indices))
    as Hrel.
  { unfold scan_ties. apply foldlM_orel; [|left; auto].
    intros i acc options' Hi Hacc.
    apply indices_from_spec in Hi as (j & -> & Hj). simpl in *.
    pose proof Hj as Hj'. unfold firstseg_of in Hj'.
    rewrite list_lookup_fmap in Hj'.
    destruct (tabs !! j) as [tab|] eqn:Htab; simpl in Hj'; [|discriminate].
    injection Hj' as Hfs.
    apply (scan_step_rel E tabs routpt1 routpt2 (mkPos routpt1) m j tab); auto.
    - intros ->. discriminate.
    - intros x Hx. apply (Hseg j tab x Hj Htab Hx). }
  destruct (scan_ties E tabs routpt1 routpt2 (mkPos routpt1) indices)
    as [[distlist options]|e|];
    destruct (foldlM _ [] indices) as [options'|e'|]; simpl in Hrel;
    try contradiction; simpl; [|congruence|reflexivity].
  destruct Hrel as [[Hacc ->]|(c & s1 & rest & _ & Hopts & -> & _)].
  - injection Hacc as -> ->. reflexivity.
  - simpl in Hopts. subst options.
    change ((k ← py_index feq (fold_left (step_min flt) (running flt s1 rest) s1)
                   (s1 :: running flt s1 rest);
             of_option IndexError (indices !! k))
            = (k ← py_index feq (fold_left (step_min flt) rest s1) (s1 :: rest);
               of_option IndexError (indices !! k))).
    rewrite (index_of_min_running flt feq Ord s1 rest). reflexivity.
Qed.

End TieBreak.

(** ** One entry and no obstacles, and the fixed optimization priority *)

Section Settings.
Context `{T : Tools}.

(** No obstacles and one entry in [Route.active].  When [inputObs] is
    empty, [Route.active] holds exactly one entry at the call, line 134 has
    not raised and the cleaned direct route has a waypoint: no route is ever
    branched on; every state the loop passes through has at most one open
    route; the first iteration records the direct route as the incumbent
    and empties the open set; and the function returns the direct route's
    waypoints projected back. *)
Lemma single_entry_no_obstacles
    (fuel : nat) (x directrt : Route)
    (lat0 lon0 altitude TAS0 latdest londest : F) :
  let E := make_env 0 0 lat0 lon0 TAS0 latdest londest [] in
  direct_route E = Done directrt ->
  waypoints directrt <> [] ->
  (forall st r, expand E st r = update_incumbent E st r) /\
  py_set_last [x] directrt = Done [directrt] /\
  (forall st, rtc (loop_step E) (mkState [directrt] 0 IncInf) st ->
     (length (active st) <= 1)%nat) /\
  iteration E (mkState [directrt] 0 IncInf)
    = Done (mkState [] 1 (IncRoute directrt)) /\
  search (S (S fuel)) E (mkState [directrt] 0 IncInf)
    = Done (mkState [] 1 (IncRoute directrt)) /\
  det_path_planning (S (S fuel)) [x] lat0 lon0 altitude TAS0 latdest londest []
    = Done (map (fun element => XY2LatLon (fst element) (snd element))
                (waypoints directrt), []).
Proof.
  intros E Hdir Hwp.
  assert (iteration E (mkState [directrt] 0 IncInf)
          = Done (mkState [] 1 (IncRoute directrt))) as Hit by reflexivity.
  assert (search (S (S fuel)) E (mkState [directrt] 0 IncInf)
          = Done (mkState [] 1 (IncRoute directrt))) as Hs.
  { change (search (S (S fuel)) E (mkState [directrt] 0 IncInf))
      with (st' ← iteration E (mkState [directrt] 0 IncInf); search (S fuel) E st').
    rewrite Hit. reflexivity. }
  split; [reflexivity|]. split; [reflexivity|]. split.
  { intros st Hrtc. apply rtc_nsteps in Hrtc as [n Hn].
    inversion Hn as [|n' s0 s1 s2 [Hne _ Hi] Hrest]; subst; [simpl; lia|].
    rewrite Hit in Hi. injection Hi as <-.
    inversion Hrest as [|n'' t0 t1 t2 [Hne' _ _] _]; subst; [simpl; lia|].
    simpl in Hne'. congruence. }
  split; [exact Hit|]. split; [exact Hs|].
  unfold det_path_planning, det_path_planning_with. fold E. rewrite Hdir.
  transitivity (st ← search (S (S fuel)) E (mkState [directrt] 0 IncInf);
                wl ← waypoint_latlon (incumbent st);
                Done (wl, active st)); [reflexivity|].
  rewrite Hs. unfold waypoint_latlon. simpl.
  destruct (waypoints directrt) as [|p wps] eqn:Hw; [congruence|]. reflexivity.
Qed.

(** C8 -- the optimization priority is not an argument.  The function is
    the distance-first search: it equals the general driver with both
    settings at 0; and at priority 0, once an incumbent exists, a popped
    route is fathomed exactly when its distance is [>=] the incumbent's, and
    a feasible one replaces the incumbent exactly when its distance is [<]
    the incumbent's.  The [time] fields are not consulted. *)
Theorem C8_priority_fixed_to_distance
    (fuel : nat) (active0 : list Route)
    (lat0 lon0 altitude TAS0 latdest londest : F) (inputObs : list (list Pt)) :
  det_path_planning fuel active0 lat0 lon0 altitude TAS0 latdest londest inputObs
    = det_path_planning_with 0 0 fuel active0
        lat0 lon0 altitude TAS0 latdest londest inputObs /\
  optimizationpriority (make_env 0 0 lat0 lon0 TAS0 latdest londest inputObs) = 0 /\
  (forall E st parent inc,
      optimizationpriority E = 0 -> incflag st = 1 -> incumbent st = IncRoute inc ->
      fathomed E st parent = Done (fge (distance parent) (distance inc)) /\
      update_incumbent E st parent
        = Done (if flt (distance parent) (distance inc)
                then mkState (active st) (incflag st) (IncRoute parent)
                else st)).
Proof.
  split; [reflexivity|]. split; [reflexivity|].
  intros E st parent inc Hp Hf Hi. unfold fathomed, update_incumbent.
  rewrite Hp, Hf, Hi. simpl.
  destruct (flt (distance parent) (distance inc)); auto.
Qed.

End Settings.

(** ** The exact implementation keeps the contract *)

Module ExactFacts.
Import Exact.

Lemma qlt_spec (a b : Q) : qlt a b = true <-> (a < b)%Q.
Proof.
  unfold qlt. rewrite negb_true_iff. split.
  - intros Hb. apply Qnot_le_lt. intros Hle.
    apply Qle_bool_iff in Hle. congruence.
  - intros Hlt. destruct (Qle_bool b a) eqn:Hb; [|reflexivity].
    apply Qle_bool_iff in Hb. exfalso. apply (Qlt_not_le _ _ Hlt Hb).
Qed.

Lemma qlt_false (a b : Q) : qlt a b = false <-> (b <= a)%Q.
Proof.
  unfold qlt. rewrite negb_false_iff. apply Qle_bool_iff.
Qed.

Lemma qeq_spec (a b : Q) : qeq a b = true <-> (a == b)%Q.
Proof. apply Qeq_bool_iff. Qed.

Lemma bool_ext (b c : bool) : (b = true <-> c = true) -> b = c.
Proof.
  destruct b, c; intros [H1 H2]; auto. symmetry. auto.
Qed.

Lemma exact_order : @FloatOrder carrier tools.
Proof.
  constructor; simpl.
  - intros a. apply qeq_spec. reflexivity.
  - intros a. apply qlt_false. apply Qle_refl.
  - intros a b c Hab Hbc. apply qlt_spec. apply qlt_spec in Hab, Hbc.
    eapply Qlt_trans; eauto.
  - intros a b Hab Hba. apply qeq_spec. apply qlt_false in Hab, Hba.
    apply Qle_antisym; assumption.
  - intros a b c He. apply qeq_spec in He. apply bool_ext.
    rewrite !qlt_spec. rewrite He. reflexivity.
  - intros a b c He. apply qeq_spec in He. apply bool_ext.
    rewrite !qlt_spec. rewrite He. reflexivity.
Qed.

Lemma length_segments (l : list (Q * Q)) :
  length (segments l) = pred (length l).
Proof.
  unfold segments. rewrite length_zip_with.
  destruct l as [|p l]; [reflexivity|].
  change (tail (p :: l)) with l. change (length (p :: l)) with (S (length l)).
  rewrite Nat.min_r; simpl; lia.
Qed.

Lemma elem_of_concat {A : Type} (x : A) (ls : list (list A)) :
  x ∈ concat ls -> exists l, l ∈ ls /\ x ∈ l.
Proof.
  induction ls as [|l ls IH]; simpl; intros Hx; [inversion Hx|].
  apply elem_of_app in Hx as [Hx|Hx].
  - exists l. split; [left | exact Hx].
  - destruct (IH Hx) as (l' & Hl' & Hx'). exists l'. split; [right|]; assumption.
Qed.

Lemma exact_contract : @ToolsContract carrier tools.
Proof.
  constructor.
  - intros obs r s k Hin. simpl in Hin. unfold x_intersectroute in Hin.
    apply elem_of_concat in Hin as (l & Hl & Hin).
    apply elem_of_lookup_imap in Hl as (i & seg & -> & Hseg).
    apply list_elem_of_omap in Hin as (y & Hy & Hid). simpl in Hid. subst y.
    apply elem_of_lookup_imap in Hy as (j & edge & Heq & Hedge).
    destruct (crosses _ _ _ _); [|discriminate].
    injection Heq as -> ->.
    apply lookup_lt_Some in Hseg, Hedge.
    rewrite length_segments in Hseg, Hedge.
    cbv [Pt F ObsT carrier vert tools] in *. lia.
  - intros a. simpl. apply qeq_spec. reflexivity.
Qed.

(** ** The driver on concrete scenarios *)

Local Open Scope Q_scope.

(** The square scenario: the first iteration branches into the two routes
    around the square, and the run returns the one pushed first. *)
Lemma square_first_iteration :
  iteration square_env (mkState [direct square_env] 0 IncInf)
  = Done (mkState [square_routeL; square_routeR] 0 IncInf).
Proof. vm_compute. reflexivity. Qed.

Lemma square_run_result :
  square_run = Done ([(0, 0); (-1 # 6, 2 # 3); (-1 # 6, 1); (0, 5 # 3)], []).
Proof. vm_compute. reflexivity. Qed.

Lemma C1_witness :
  exists inc : Route,
    [(0, 0); (-1 # 6, 2 # 3); (-1 # 6, 1); (0, 5 # 3)]
      = map (fun element => XY2LatLon (fst element) (snd element)) (waypoints inc) /\
    Forall (fun obs => intersectroute obs inc = [])
      (e_obsDic_xy (make_env 0 0 0 0 400 0 (5 # 3) [square_ll])).
Proof.
  apply (C1_returned_route_is_obstacle_free 10 [slot] 0 0 30000 400 0 (5 # 3)
           [square_ll] _ []).
  vm_compute. reflexivity.
Defined.

(** The scenarios build their direct routes: the airspeed is not zero. *)
Lemma square_direct : direct_route square_env = Done (direct square_env).
Proof. vm_compute. reflexivity. Qed.

Lemma free_direct : direct_route free_env = Done (direct free_env).
Proof. vm_compute. reflexivity. Qed.

(** With 500 routes in [Route.active] at the call, 499 parked ones and the
    slot, the first iteration branches on the square and the second loop
    head finds 501 open routes. *)
Lemma C2_witness :
  iteration square_env (mkState (repeat parked 499 ++ [direct square_env]) 0 IncInf)
    = Done (mkState (repeat parked 499 ++ [square_routeL; square_routeR]) 0 IncInf) /\
  det_path_planning 2 (repeat parked 500) 0 0 30000 400 0 (5 # 3) [square_ll]
    = Raise ImpossibleToFindRoute /\
  (forall act e, search 10 square_env (mkState act 0 IncInf) = Raise e ->
     e = ImpossibleToFindRoute /\
     exists n st, nsteps (loop_step square_env) n (mkState act 0 IncInf) st /\
                  (500 < Z.of_nat (length (active st)))%Z).
Proof.
  destruct (@C2_runaway_guard carrier tools exact_contract)
    as (Hcap & Hcall & Hsole & Hfail & Hzero & Hindex).
  assert (iteration square_env
            (mkState (repeat parked 499 ++ [direct square_env]) 0 IncInf)
          = Done (mkState (repeat parked 499 ++ [square_routeL; square_routeR])
                          0 IncInf)) as Hit
    by (vm_compute; reflexivity).
  split; [exact Hit|]. split.
  - apply (Hcall 0%nat (repeat parked 500) 0 0 30000 400 0 (5 # 3) [square_ll]
             (direct square_env)
             (repeat parked 499 ++ [direct square_env]) 1%nat
             (mkState (repeat parked 499 ++ [square_routeL; square_routeR])
                      0 IncInf)).
    + exact square_direct.
    + vm_compute. reflexivity.
    + apply nsteps_l with
        (mkState (repeat parked 499 ++ [square_routeL; square_routeR]) 0 IncInf);
        [|apply nsteps_O].
      constructor; [ | | exact Hit].
      * intros Hnil. apply (f_equal length) in Hnil. vm_compute in Hnil.
        discriminate.
      * vm_compute. discriminate.
    + vm_compute. reflexivity.
  - exact (Hsole square_env 10%nat).
Defined.

(** The size cap is not the only failure of a call: an empty [Route.active]
    gives an index error, an airspeed of zero a zero division, and an
    incumbent without waypoints a value error at the unpacking. *)
Lemma C2_counterexample :
  det_path_planning 10 [] 0 0 30000 400 0 (5 # 3) [square_ll]
    = Raise IndexError /\
  det_path_planning 10 [slot] 0 0 30000 0 0 (5 # 3) [square_ll]
    = Raise ZeroDivisionError /\
  det_path_planning 10 [slot; slot] 0 0 30000 400 0 (5 # 3) []
    = Raise ValueError.
Proof.
  split; [vm_compute; reflexivity|]. split; vm_compute; reflexivity.
Qed.

Lemma C4_witness :
  exists i parent,
    [square_routeL; square_routeR] !! i = Some parent /\
    select_parent [square_routeL; square_routeR]
      = Done (parent, delete i [square_routeL; square_routeR]) /\
    (forall r, r ∈ [square_routeL; square_routeR] ->
       flt (deviation r) (deviation parent) = false) /\
    (forall j r, (j < i)%nat -> [square_routeL; square_routeR] !! j = Some r ->
       flt (deviation parent) (deviation r) = true).
Proof.
  apply (proj2 (C4_best_first_selection exact_order [square_routeL; square_routeR])).
  simpl. lia.
Defined.

(** After the lower route became the incumbent, the upper one (equally
    long) is fathomed. *)
Lemma C5_witness :
  fathomed square_env (mkState [] 1 (IncRoute square_routeL)) square_routeR
    = Done true /\
  iteration square_env (mkState [square_routeR] 1 (IncRoute square_routeL))
    = Done (mkState [] 1 (IncRoute square_routeL)).
Proof.
  apply (C5_bound_check square_env (mkState [square_routeR] 1 (IncRoute square_routeL))
           square_routeR square_routeL []).
  - reflexivity.
  - reflexivity.
  - reflexivity.
  - left. split; reflexivity.
Defined.

(** C7 -- no obstacles, with routes left in [Route.active].  The call
    from (0,0) to 100 NM east of it, without obstacles, has the direct route
    [(0,0); (0,5/3)] in degrees, and returns it when [Route.active] holds
    the slot only.  The seed overwrites the last entry of [Route.active] and
    the loop runs on the whole list: with the route [stale] (50 NM long,
    deviation 0) in front of the slot the open set starts with two routes,
    the first iteration selects [stale] (the first of the two deviations 0)
    and records it as the incumbent, the second fathoms the direct route
    (100 NM against 50 NM), and the call returns the waypoints of [stale].
    With 501 entries in the list the call raises at the first loop head. *)
Theorem C7_stale_routes_enter_the_search :
  direct_route free_env = Done (direct free_env) /\
  map (fun element => XY2LatLon (fst element) (snd element))
      (waypoints (direct free_env)) = [(0, 0); (0, 5 # 3)] /\
  det_path_planning 10 [slot] 0 0 30000 400 0 (5 # 3) []
    = Done ([(0, 0); (0, 5 # 3)], []) /\
  py_set_last [stale; slot] (direct free_env)
    = Done [stale; direct free_env] /\
  iteration free_env (mkState [stale; direct free_env] 0 IncInf)
    = Done (mkState [direct free_env] 1 (IncRoute stale)) /\
  iteration free_env (mkState [direct free_env] 1 (IncRoute stale))
    = Done (mkState [] 1 (IncRoute stale)) /\
  det_path_planning 10 [stale; slot] 0 0 30000 400 0 (5 # 3) []
    = Done ([(0, 0); (0, 5 # 6)], []) /\
  det_path_planning 10 (repeat stale 501) 0 0 30000 400 0 (5 # 3) []
    = Raise ImpossibleToFindRoute.
Proof.
  split; [exact free_direct|].
  repeat split; vm_compute; reflexivity.
Qed.

Lemma C8_witness :
  fathomed square_env (mkState [] 1 (IncRoute square_routeL)) square_routeR
    = Done (fge (distance square_routeR) (distance square_routeL)) /\
  update_incumbent square_env (mkState [] 1 (IncRoute square_routeL)) square_routeR
    = Done (if flt (distance square_routeR) (distance square_routeL)
            then mkState [] 1 (IncRoute square_routeR)
            else mkState [] 1 (IncRoute square_routeL)).
Proof.
  apply (proj2 (proj2 (@C8_priority_fixed_to_distance carrier tools
                         0%nat [] 0 0 0 400 0 (5 # 3) []))
           square_env (mkState [] 1 (IncRoute square_routeL))
           square_routeR square_routeL);
    reflexivity.
Defined.

(** The time-first search on the same call returns the direct route (a
    quarter of an hour); the function returns the stale route (50 NM, one
    hour). *)
Lemma C8_counterexample :
  det_path_planning 10 [stale; slot] 0 0 30000 400 0 (5 # 3) []
    = Done ([(0, 0); (0, 5 # 6)], []) /\
  det_path_planning_with 0 1 10 [stale; slot] 0 0 30000 400 0 (5 # 3) []
    = Done ([(0, 0); (0, 5 # 3)], []) /\
  det_path_planning 10 [stale; slot] 0 0 30000 400 0 (5 # 3) []
    <> det_path_planning_with 0 1 10 [stale; slot] 0 0 30000 400 0 (5 # 3) [].
Proof.
  split; [vm_compute; reflexivity|]. split; [vm_compute; reflexivity|].
  vm_compute. discriminate.
Qed.

Lemma C9_witness :
  incflag (mkState [] 1 (IncRoute (direct free_env))) = 1%Z /\
  exists r, incumbent (mkState [] 1 (IncRoute (direct free_env))) = IncRoute r /\
            feasible free_env r.
Proof.
  apply (proj1 (C9_exit_implies_incumbent 2 [slot] 0 0 30000 400 0 (5 # 3) [])
           (direct free_env) [direct free_env]).
  - exact free_direct.
  - reflexivity.
  - vm_compute. reflexivity.
Defined.

Lemma C10_witness :
  det_path_planning 10 [] 0 0 30000 400 0 (5 # 3) [square_ll]
    = Raise IndexError /\
  (forall pre x,
      py_set_last (pre ++ [x]) (direct square_env)
        = Done (pre ++ [direct square_env]) /\
      det_path_planning 10 (pre ++ [x]) 0 0 30000 400 0 (5 # 3) [square_ll]
        = (st ← search 10 square_env (mkState (pre ++ [direct square_env]) 0 IncInf);
           wl ← waypoint_latlon (incumbent st);
           Done (wl, active st))).
Proof.
  apply (proj1 (@C10_shared_open_set carrier tools 10%nat
                  0 0 30000 400 0 (5 # 3) [square_ll])
           (direct square_env)).
  exact square_direct.
Defined.

(** C6 -- the tie-break, on a run from (0,0) to (10,10) NM with the three
    obstacles [boxA], [sliverB], [wedgeC].  The first iteration detours
    around [wedgeC]; the route through its corner deviates least and is
    selected next.  It first meets [boxA] and [sliverB] on its segment 0,
    [boxA] at distance 4 from the segment's start and [sliverB] at distance
    85/11.  [sliverB] also crosses segment 1, with an edge whose line meets
    the line of segment 0 at distance 2; that value enters the comparison,
    and the driver branches on [sliverB] (obstacle 1) although the closest
    intersection with segment 0 is that of [boxA] (obstacle 0). *)
Theorem C6_tie_break_measures_other_segments :
  iteration corner_env (mkState [direct corner_env] 0 IncInf)
    = Done (mkState [corner_route; far_route] 0 IncInf) /\
  select_parent [corner_route; far_route] = Done (corner_route, [far_route]) /\
  all_intersections corner_env corner_route
    = [[(0, 0); (0, 2)]; [(0, 0); (0, 2); (1, 1); (1, 2)]; []]%Z /\
  scan_ties corner_env (all_intersections corner_env corner_route)
      (0, 0) (10, 0) (0, 0) [0%nat; 1%nat]
    = Done ([4; 5; 85 # 11; 116 # 13; 2; 116 # 13], [4; 2]) /\
  choose_branch corner_env corner_route (all_intersections corner_env corner_route)
    = Done 1%nat /\
  closest_on_segment corner_env corner_route
      (all_intersections corner_env corner_route)
    = Done 0%nat.
Proof. repeat split; vm_compute; reflexivity. Qed.

(** Two boxes on segment 0 and nothing elsewhere: the driver picks the
    nearer box (obstacle 1), as the obstacle-by-obstacle scan does. *)
Lemma boxes_tie_break :
  choose_branch boxes_env (direct boxes_env)
      (all_intersections boxes_env (direct boxes_env))
    = closest_on_segment boxes_env (direct boxes_env)
        (all_intersections boxes_env (direct boxes_env)) /\
  choose_branch boxes_env (direct boxes_env)
      (all_intersections boxes_env (direct boxes_env))
    = Done 1%nat.
Proof.
  split; [|vm_compute; reflexivity].
  apply (tie_break_on_one_segment exact_order boxes_env (direct boxes_env)
           (all_intersections boxes_env (direct boxes_env)) 0%Z).
  - vm_compute. reflexivity.
  - vm_compute. reflexivity.
  - intros i tab x Hi Htab Hx.
    assert (all_intersections boxes_env (direct boxes_env)
            = [[(0, 0); (0, 2)]; [(0, 0); (0, 2)]]%Z) as Hall
      by (vm_compute; reflexivity).
    rewrite Hall in Htab.
    destruct i as [|[|i]]; simpl in Htab; try discriminate;
      injection Htab as <-;
      repeat (apply elem_of_cons in Hx as [->|Hx]; [reflexivity|]);
      inversion Hx.
Defined.

End ExactFacts.

(** ** Further properties of the driver *)

Section Extras.
Context `{T : Tools}.

(** A completed selection removes one position of the open set. *)
Lemma select_parent_Done (act : list Route) (p : Route) (rest : list Route) :
  select_parent act = Done (p, rest) ->
  exists i, act !! i = Some p /\ rest = delete i act.
Proof.
  unfold select_parent. destruct (Z.of_nat (length act) =? 1) eqn:Hlen.
  - apply Z.eqb_eq in Hlen.
    destruct act as [|r [|r' act]]; simpl in Hlen; try lia.
    simpl. intros Hs. injection Hs as <- <-. exists O. auto.
  - intros Hs.
    apply bind_Done in Hs as (m & _ & Hs).
    apply bind_Done in Hs as (i & _ & Hs).
    unfold py_pop_at in Hs. destruct (act !! i) as [x|] eqn:Hx; [|discriminate].
    injection Hs as <- <-. eauto.
Qed.

Lemma select_parent_length (act : list Route) (p : Route) (rest : list Route) :
  select_parent act = Done (p, rest) ->
  (length rest + 1 = length act)%nat.
Proof.
  intros Hs. apply select_parent_Done in Hs as (i & Hi & ->).
  rewrite length_delete by eauto.
  apply lookup_lt_Some in Hi. lia.
Qed.

(** X2 -- the size of the open set.  A completed iteration changes the
    number of open routes by one: one fewer (the popped route was fathomed
    or recorded) or one more (the popped route was replaced by its two
    trial routes).  As the loop refuses to start a turn on more than 500
    routes, a run that starts with at most 501 never holds more than 501. *)
Theorem X2_open_set_size (E : env) :
  (forall st st',
      iteration E st = Done st' ->
      (length (active st') + 1 = length (active st))%nat \/
      (length (active st') = length (active st) + 1)%nat) /\
  (forall n st0 st,
      nsteps (loop_step E) n st0 st ->
      (length (active st0) <= 501)%nat ->
      (length (active st) <= 501)%nat).
Proof.
  assert (forall st st',
      iteration E st = Done st' ->
      (length (active st') + 1 = length (active st))%nat \/
      (length (active st') = length (active st) + 1)%nat) as Hstep.
  { intros st st' Hi.
    apply iteration_Done in Hi as (parent & rest & Hsel & Hi).
    apply select_parent_length in Hsel. simpl in Hi.
    destruct Hi as [[_ ->]|[(_ & _ & Hu)|[_ Hb]]].
    - left. simpl. exact Hsel.
    - apply update_incumbent_Done in Hu as [-> _]. left. simpl. exact Hsel.
    - apply branch_on_Done in Hb as (_ & _ & routeL & routeR & ->).
      right. simpl. rewrite !length_app. simpl. lia. }
  split; [exact Hstep|].
  induction 1 as [st|n st0 st1 st [Hne Hcap Hit] _ IH]; [auto|].
  intros _. apply IH. destruct (Hstep _ _ Hit); lia.
Qed.

Lemma Z_order : OrderLaws Z.ltb Z.eqb.
Proof.
  constructor.
  - intros a. apply Z.eqb_refl.
  - intros a. apply Z.ltb_irrefl.
  - intros a b c Hab Hbc. apply Z.ltb_lt in Hab, Hbc. apply Z.ltb_lt. lia.
  - intros a b Hab Hba. apply Z.ltb_ge in Hab, Hba. apply Z.eqb_eq. lia.
  - intros a b c He. apply Z.eqb_eq in He as ->. reflexivity.
  - intros a b c He. apply Z.eqb_eq in He as ->. reflexivity.
Qed.

Lemma firstseg_lookup (tabs : list (list (Z * Z))) (i : nat) (m : Z) :
  firstseg_of tabs !! i = Some (Some m) ->
  exists tab, tabs !! i = Some tab /\ first_seg tab = Some m.
Proof.
  unfold firstseg_of. rewrite list_lookup_fmap.
  destruct (tabs !! i) as [tab|]; simpl; [|discriminate].
  intros Hf. injection Hf as Hf. eauto.
Qed.

(** X3 -- the branching obstacle is one that the route meets first.  When
    the choice of the branching obstacle completes, the chosen position
    holds a non-empty intersection table, and the least route segment in
    that table is the least route segment tabulated for any obstacle. *)
Theorem X3_branch_is_first_encountered (E : env) (parent : Route)
    (tabs : list (list (Z * Z))) (branch : nat) :
  choose_branch E parent tabs = Done branch ->
  exists tab m,
    tabs !! branch = Some tab /\ tab <> [] /\ first_seg tab = Some m /\
    forall i tab' m',
      tabs !! i = Some tab' -> first_seg tab' = Some m' -> m <= m'.
Proof.
  unfold choose_branch. intros Hc.
  apply bind_Done in Hc as (m & Hm & Hc).
  assert (forall i tab' m',
             tabs !! i = Some tab' -> first_seg tab' = Some m' -> m <= m') as Hmin.
  { intros i tab' m' Hi Hf.
    destruct (omap id (firstseg_of tabs)) as [|x xs] eqn:Hv; [discriminate|].
    simpl in Hm. injection Hm as <-.
    destruct (fold_min_spec Z.ltb Z.eqb Z_order xs x) as [_ Hle].
    assert (m' ∈ x :: xs) as Hin.
    { rewrite <- Hv. apply list_elem_of_omap. exists (Some m'). split; [|reflexivity].
      unfold firstseg_of. rewrite <- Hf.
      apply (list_elem_of_fmap_2 first_seg), (list_elem_of_lookup_2 _ i), Hi. }
    apply Hle in Hin. apply Z.ltb_ge in Hin. exact Hin. }
  assert (firstseg_of tabs !! branch = Some (Some m)) as Hb.
  { destruct (py_count seg_eq m (firstseg_of tabs) >? 1).
    - apply bind_Done in Hc as (routpt1 & _ & Hc).
      apply bind_Done in Hc as (routpt2 & _ & Hc).
      apply bind_Done in Hc as ([dl options] & _ & Hc).
      apply bind_Done in Hc as (mo & _ & Hc).
      apply bind_Done in Hc as (k & _ & Hc).
      destruct (indices_from O (firstseg_of tabs) m !! k) as [b|] eqn:Hk;
        [|discriminate].
      injection Hc as ->.
      apply list_elem_of_lookup_2, indices_from_spec in Hk as (j & -> & Hj).
      exact Hj.
    - revert Hc. generalize (firstseg_of tabs). intros fs. revert branch.
      induction fs as [|y fs IH]; intros branch Hc; simpl in Hc; [discriminate|].
      destruct (seg_eq y m) eqn:Hy.
      + injection Hc as <-. simpl. destruct y as [s|]; simpl in Hy; [|discriminate].
        apply Z.eqb_eq in Hy as ->. reflexivity.
      + apply bind_Done in Hc as (i & Hi & Hc). injection Hc as <-.
        simpl. apply IH, Hi. }
  apply firstseg_lookup in Hb as (tab & Htab & Hf).
  exists tab, m. repeat split; auto.
  intros ->. discriminate.
Qed.

(** X4 -- what the function returns.  A returned waypoint list is not
    empty and holds one entry for each waypoint of the final incumbent; and
    the value of [Route.active] at the return is the empty list. *)
Theorem X4_returned_list
    (fuel : nat) (active0 : list Route)
    (lat0 lon0 altitude TAS0 latdest londest : F) (inputObs : list (list Pt))
    (wl : list Pt) (act' : list Route) :
  det_path_planning fuel active0 lat0 lon0 altitude TAS0 latdest londest inputObs
    = Done (wl, act') ->
  wl <> [] /\ act' = [] /\
  exists directrt st' inc,
    direct_route (make_env 0 0 lat0 lon0 TAS0 latdest londest inputObs)
      = Done directrt /\
    incumbent st' = IncRoute inc /\ length wl = length (waypoints inc) /\
    search fuel (make_env 0 0 lat0 lon0 TAS0 latdest londest inputObs)
      (mkState (<[pred (length active0) := directrt]> active0) 0 IncInf)
      = Done st'.
Proof.
  unfold det_path_planning, det_path_planning_with. intros Hd.
  set (E := make_env 0 0 lat0 lon0 TAS0 latdest londest inputObs) in *.
  apply bind_Done in Hd as (directrt & Hdir & Hd).
  apply bind_Done in Hd as (act & Hset & Hd).
  apply bind_Done in Hd as (st & Hs & Hd).
  apply bind_Done in Hd as (wl' & Hw & Hd).
  injection Hd as -> <-.
  pose proof (search_Done E (fun _ => True) (fun _ _ _ _ => I) fuel _ _ I Hs)
    as [_ Hnil].
  unfold waypoint_latlon in Hw.
  apply bind_Done in Hw as (inc & Hinc & Hw).
  destruct (incumbent st) as [|r] eqn:Hi; simpl in Hinc; [discriminate|].
  injection Hinc as ->.
  destruct (waypoints inc) as [|p wps] eqn:Hwp; [discriminate|].
  injection Hw as <-.
  split; [discriminate|]. split; [exact Hnil|].
  exists directrt, st, inc. split; [exact Hdir|]. split; [exact Hi|]. split.
  { rewrite Hwp. simpl. rewrite length_map. reflexivity. }
  destruct active0 as [|a l]; simpl in Hset; [discriminate|].
  injection Hset as <-. exact Hs.
Qed.

End Extras.

Section Costs.
Context `{T : Tools} (Ord : FloatOrder).

(** Under priority 0 or 1, an iteration that starts with an incumbent keeps
    it or replaces it by a route of strictly smaller cost. *)
Lemma iteration_incumbent (E : env) (st st' : state) (inc : Route) :
  optimizationpriority E = 0 \/ optimizationpriority E = 1 ->
  incflag st = 1 -> incumbent st = IncRoute inc ->
  iteration E st = Done st' ->
  incflag st' = 1 /\
  exists inc', incumbent st' = IncRoute inc' /\
    (inc' = inc \/ flt (active_cost E inc') (active_cost E inc) = true).
Proof.
  intros Hp Hf Hinc Hi.
  apply iteration_Done in Hi as (parent & rest & _ & Hi). simpl in Hi.
  destruct Hi as [[_ ->]|[(_ & _ & Hu)|[_ Hb]]].
  - simpl. eauto.
  - unfold update_incumbent in Hu. simpl in Hu. rewrite Hf, Hinc in Hu.
    simpl in Hu. unfold active_cost.
    destruct Hp as [Hp|Hp]; rewrite Hp in *; simpl in *.
    + destruct (flt (distance parent) (distance inc)) eqn:Hlt;
        injection Hu as <-; simpl; eauto.
    + destruct (flt (time parent) (time inc)) eqn:Hlt;
        injection Hu as <-; simpl; eauto.
  - apply branch_on_Done in Hb as (-> & -> & _). simpl. eauto.
Qed.

Lemma lt_asym (a b : F) : flt a b = true -> flt b a = false.
Proof.
  intros Hab. destruct (flt b a) eqn:Hba; [|reflexivity].
  rewrite <- (ol_irrefl _ _ Ord a). symmetry.
  apply (ol_trans _ _ Ord a b a Hab Hba).
Qed.

(** Along a run, the cost of the incumbent does not grow. *)
Lemma run_incumbent (E : env) (st st' : state) :
  optimizationpriority E = 0 \/ optimizationpriority E = 1 ->
  rtc (loop_step E) st st' ->
  forall inc, incflag st = 1 -> incumbent st = IncRoute inc ->
  incflag st' = 1 /\
  exists inc', incumbent st' = IncRoute inc' /\
    flt (active_cost E inc) (active_cost E inc') = false.
Proof.
  intros Hp Hrtc.
  induction Hrtc as [st|st st1 st' [_ _ Hi] _ IH]; intros inc Hf Hinc.
  - split; [exact Hf|]. exists inc. split; [exact Hinc|]. apply (ol_irrefl _ _ Ord).
  - destruct (iteration_incumbent E st st1 inc Hp Hf Hinc Hi)
      as (Hf1 & inc1 & Hinc1 & Hcmp).
    destruct (IH inc1 Hf1 Hinc1) as (Hf' & inc' & Hinc' & Hle).
    split; [exact Hf'|]. exists inc'. split; [exact Hinc'|].
    destruct Hcmp as [->|Hlt]; [exact Hle|].
    apply (lt_neg_trans flt feq Ord _ (active_cost E inc1) _); [|exact Hle].
    apply lt_asym, Hlt.
Qed.

(** X5 -- the incumbent never gets worse.  Under priority 0 (distance) or 1
    (time), once an incumbent is recorded every later state of the run has
    an incumbent, and its cost is not greater than that of any earlier
    incumbent. *)
Theorem X5_incumbent_never_worse (E : env) (st st' : state) (inc : Route) :
  optimizationpriority E = 0 \/ optimizationpriority E = 1 ->
  rtc (loop_step E) st st' ->
  incflag st = 1 -> incumbent st = IncRoute inc ->
  incflag st' = 1 /\
  exists inc', incumbent st' = IncRoute inc' /\
    flt (active_cost E inc) (active_cost E inc') = false.
Proof. intros Hp Hrtc Hf Hinc. apply (run_incumbent E st st' Hp Hrtc inc Hf Hinc). Qed.

(** X6 -- the final incumbent is the best obstacle-free route the search
    came across.  If a turn of the loop pops a route that meets no obstacle,
    then in every later state of the run the incumbent costs no more than
    that route, whether the route was recorded or fathomed. *)
Theorem X6_best_of_examined (G : FloatGe) (E : env) (st st1 st' : state)
    (p : Route) (rest : list Route) :
  optimizationpriority E = 0 \/ optimizationpriority E = 1 ->
  flag_ok st ->
  select_parent (active st) = Done (p, rest) ->
  feasible E p ->
  loop_step E st st1 ->
  rtc (loop_step E) st1 st' ->
  exists inc', incumbent st' = IncRoute inc' /\
    flt (active_cost E p) (active_cost E inc') = false.
Proof.
  intros Hp Hok Hsel Hfeas [_ _ Hi] Hrtc.
  assert (incflag st1 = 1 /\ exists inc1, incumbent st1 = IncRoute inc1 /\
            flt (active_cost E p) (active_cost E inc1) = false)
    as (Hf1 & inc1 & Hinc1 & Hle1).
  { unfold iteration in Hi. rewrite Hsel in Hi. simpl in Hi.
    apply bind_Done in Hi as (skip & Hfa & Hi).
    unfold fathomed in Hfa. simpl in Hfa. unfold active_cost.
    destruct Hok as [H0|(H1 & inc & Hinc)].
    - rewrite H0 in Hfa. simpl in Hfa. injection Hfa as <-.
      unfold expand in Hi.
      destruct (Z.of_nat (length (filter _ (all_intersections E p))) =? 0) eqn:Hz.
      + unfold update_incumbent in Hi. simpl in Hi. rewrite H0 in Hi. simpl in Hi.
        injection Hi as <-. simpl. split; [reflexivity|].
        exists p. split; [reflexivity|].
        destruct (optimizationpriority E =? 0); apply (ol_irrefl _ _ Ord).
      + exfalso. apply some_truthy in Hz as (tab & Hin & Hne).
        unfold all_intersections in Hin.
        apply list_elem_of_fmap in Hin as (obs & -> & Hobs).
        unfold feasible in Hfeas. rewrite Forall_forall in Hfeas.
        apply Hne, Hfeas, Hobs.
    - rewrite H1, Hinc in Hfa. simpl in Hfa.
      assert (skip = fge (active_cost E p) (active_cost E inc)) as Hskip.
      { unfold active_cost. destruct Hp as [Hp|Hp]; rewrite Hp in *; simpl in *;
          injection Hfa as <-; reflexivity. }
      unfold active_cost in Hskip.
      destruct skip.
      + injection Hi as <-. simpl. split; [exact H1|].
        exists inc. split; [exact Hinc|]. apply G. symmetry. exact Hskip.
      + unfold expand in Hi.
        destruct (Z.of_nat (length (filter _ (all_intersections E p))) =? 0) eqn:Hz.
        * unfold update_incumbent in Hi. simpl in Hi. rewrite H1, Hinc in Hi.
          simpl in Hi.
          destruct Hp as [Hp|Hp]; rewrite Hp in *; simpl in *.
          -- destruct (flt (distance p) (distance inc)) eqn:Hlt;
               injection Hi as <-; simpl; split; auto.
             ++ exists p. split; [reflexivity | apply (ol_irrefl _ _ Ord)].
             ++ exists inc. auto.
          -- destruct (flt (time p) (time inc)) eqn:Hlt;
               injection Hi as <-; simpl; split; auto.
             ++ exists p. split; [reflexivity | apply (ol_irrefl _ _ Ord)].
             ++ exists inc. auto.
        * exfalso. apply some_truthy in Hz as (tab & Hin & Hne).
          unfold all_intersections in Hin.
          apply list_elem_of_fmap in Hin as (obs & -> & Hobs).
          unfold feasible in Hfeas. rewrite Forall_forall in Hfeas.
          apply Hne, Hfeas, Hobs. }
  destruct (run_incumbent E st1 st' Hp Hrtc inc1 Hf1 Hinc1) as (_ & inc' & Hinc' & Hle).
  exists inc'. split; [exact Hinc'|].
  apply (lt_neg_trans flt feq Ord _ (active_cost E inc1) _); assumption.
Qed.

End Costs.

Section ExtrasContract.
Context `{C : ToolsContract}.

Lemma feasible_no_truthy (E : env) (p : Route) :
  feasible E p ->
  (Z.of_nat (length (filter (fun tab => truthy tab = true)
                            (all_intersections E p))) =? 0) = true.
Proof.
  unfold feasible, all_intersections. intros Hf. apply Z.eqb_eq.
  induction Hf as [|obs l Hobs _ IH]; [reflexivity|].
  simpl. rewrite filter_cons, Hobs. simpl.
  destruct (decide (false = true)); [discriminate | exact IH].
Qed.

(** When no open route meets an obstacle, each turn pops one route and
    pushes none. *)
Lemma search_all_feasible (E : env) :
  forall n st,
    length (active st) = n -> (n <= 500)%nat ->
    flag_ok st ->
    (forall r, r ∈ active st -> feasible E r) ->
    exists st',
      search (S n) E st = Done st' /\ active st' = [] /\
      (forall r, incumbent st' = IncRoute r ->
                 r ∈ active st \/ incumbent st = IncRoute r).
Proof.
  induction n as [|n IH]; intros st Hlen Hcap Hok Hfeas.
  - exists st. simpl. rewrite Hlen. simpl. split; [reflexivity|].
    split; [|auto]. destruct (active st); [reflexivity | discriminate].
  - assert (active st <> []) as Hne by (intros Hnil; rewrite Hnil in Hlen; discriminate).
    destruct (select_parent_total (active st) Hne) as (p & rest & Hsel).
    pose proof (select_parent_Done _ _ _ Hsel) as (i & Hi & Hrest).
    pose proof (select_parent_length _ _ _ Hsel) as Hlr.
    assert (p ∈ active st) as Hp by (apply (list_elem_of_lookup_2 _ i), Hi).
    assert (exists st1, iteration E st = Done st1 /\ active st1 = rest /\
              (incumbent st1 = IncRoute p \/ incumbent st1 = incumbent st))
      as (st1 & Hit & Hact1 & Hinc1).
    { destruct (iteration_total E st Hok Hne) as [st1 Hit].
      exists st1. split; [exact Hit|].
      unfold iteration in Hit. rewrite Hsel in Hit. simpl in Hit.
      apply bind_Done in Hit as (skip & _ & Hit).
      destruct skip.
      - injection Hit as <-. simpl. auto.
      - unfold expand in Hit. rewrite (feasible_no_truthy E p (Hfeas p Hp)) in Hit.
        apply update_incumbent_Done in Hit as [Ha Hu]. simpl in Ha, Hu.
        split; [exact Ha|]. destruct Hu as [(_ & _ & ?)|(_ & _ & ?)]; auto. }
    destruct (iteration_flag_ok E st st1 Hok Hit) as [Hok1 _].
    destruct (IH st1) as (st' & Hs & Hnil & Hinc'); auto.
    + rewrite Hact1. lia.
    + lia.
    + intros r Hr. rewrite Hact1, Hrest in Hr.
      apply Hfeas, (list_elem_of_delete_inv _ i), Hr.
    + exists st'. split; [|split; [exact Hnil|]].
      * change (search (S (S n)) E st)
          with (if Z.of_nat (length (active st)) =? 0 then Done st
                else if Z.of_nat (length (active st)) >? 500
                     then Raise ImpossibleToFindRoute
                     else st1' ← iteration E st; search (S n) E st1').
        rewrite Hlen.
        replace (Z.of_nat (S n) =? 0) with false by (symmetry; apply Z.eqb_neq; lia).
        replace (Z.of_nat (S n) >? 500) with false
          by (symmetry; rewrite Z.gtb_ltb; apply Z.ltb_ge; lia).
        rewrite Hit. exact Hs.
      * intros r Hr. destruct (Hinc' r Hr) as [Hin|Hin].
        -- left. rewrite Hact1, Hrest in Hin.
           apply (list_elem_of_delete_inv _ i), Hin.
        -- destruct Hinc1 as [Hq|Hq]; rewrite Hq in Hin.
           ++ injection Hin as <-. left. exact Hp.
           ++ right. exact Hin.
Qed.

(** X8 -- no branching, no waiting.  If none of the open routes meets an
    obstacle (as is the case without obstacles) and there are between 1 and
    500 of them, the loop started without incumbent ends after as many
    turns as there are open routes, with the open set empty and one of
    those routes as the incumbent. *)
Theorem X8_all_feasible_terminates (E : env) (act : list Route) :
  act <> [] -> (length act <= 500)%nat ->
  (forall r, r ∈ act -> feasible E r) ->
  exists st' inc,
    search (S (length act)) E (mkState act 0 IncInf) = Done st' /\
    active st' = [] /\ incflag st' = 1 /\
    incumbent st' = IncRoute inc /\ inc ∈ act.
Proof.
  intros Hne Hcap Hfeas.
  destruct (search_all_feasible E (length act) (mkState act 0 IncInf))
    as (st' & Hs & Hnil & Hinc); auto.
  { left. reflexivity. }
  pose proof Hs as Hfl. apply search_flag_ok in Hfl as [Hf [inc Hi]].
  2: { left. reflexivity. }
  2: { intros _. exact Hne. }
  exists st', inc. repeat split; auto.
  destruct (Hinc inc Hi) as [Hin|Hin]; [exact Hin | discriminate].
Qed.

End ExtrasContract.

(** ** The further properties on the exact instance *)

Module ExtraFacts.
Import Exact.
Local Open Scope Q_scope.

Lemma exact_ge : @FloatGe carrier tools.
Proof.
  intros a b. simpl. unfold qge, qlt. intros ->. reflexivity.
Qed.

Lemma square_second_iteration :
  iteration square_env (mkState [square_routeL; square_routeR] 0 IncInf)
  = Done (mkState [square_routeR] 1 (IncRoute square_routeL)).
Proof. vm_compute. reflexivity. Qed.

Lemma square_third_iteration :
  iteration square_env (mkState [square_routeR] 1 (IncRoute square_routeL))
  = Done (mkState [] 1 (IncRoute square_routeL)).
Proof. vm_compute. reflexivity. Qed.

Lemma square_routeL_feasible : feasible square_env square_routeL.
Proof.
  unfold feasible.
  destruct (e_obsDic_xy square_env) as [|obs [|obs' l]] eqn:Hobs;
    try (vm_compute in Hobs; discriminate).
  vm_compute in Hobs. injection Hobs as <-.
  constructor; [vm_compute; reflexivity | constructor].
Qed.

Lemma X2_witness :
  (length (active (mkState [square_routeL; square_routeR] 0 IncInf)) + 1
   = length (active (mkState [direct square_env] 0 IncInf)))%nat \/
  (length (active (mkState [square_routeL; square_routeR] 0 IncInf))
   = length (active (mkState [direct square_env] 0 IncInf)) + 1)%nat.
Proof.
  apply (proj1 (X2_open_set_size square_env)
           (mkState [direct square_env] 0 IncInf)
           (mkState [square_routeL; square_routeR] 0 IncInf)).
  vm_compute. reflexivity.
Defined.

Lemma X3_witness :
  exists tab m,
    all_intersections boxes_env (direct boxes_env) !! 1%nat = Some tab /\
    tab <> [] /\ first_seg tab = Some m /\
    forall i tab' m',
      all_intersections boxes_env (direct boxes_env) !! i = Some tab' ->
      first_seg tab' = Some m' -> (m <= m')%Z.
Proof.
  apply (X3_branch_is_first_encountered boxes_env (direct boxes_env)
           (all_intersections boxes_env (direct boxes_env)) 1%nat).
  vm_compute. reflexivity.
Defined.

Lemma X4_witness :
  ([(0, 0); (-1 # 6, 2 # 3); (-1 # 6, 1); (0, 5 # 3)]%Q : list Pt) <> [] /\
  ([] : list Route) = [] /\
  exists directrt st' inc,
    direct_route square_env = Done directrt /\
    incumbent st' = IncRoute inc /\
    length ([(0, 0); (-1 # 6, 2 # 3); (-1 # 6, 1); (0, 5 # 3)]%Q : list Pt)
      = length (waypoints inc) /\
    search 10 square_env
      (mkState (<[pred (length [slot]) := directrt]> [slot]) 0 IncInf)
      = Done st'.
Proof.
  apply (@X4_returned_list carrier tools 10%nat [slot] 0 0 30000 400 0 (5 # 3) [square_ll]).
  vm_compute. reflexivity.
Defined.

Lemma X5_witness :
  incflag (mkState [] 1 (IncRoute square_routeL)) = 1%Z /\
  exists inc',
    incumbent (mkState [] 1 (IncRoute square_routeL)) = IncRoute inc' /\
    flt (active_cost square_env square_routeL) (active_cost square_env inc') = false.
Proof.
  apply (X5_incumbent_never_worse ExactFacts.exact_order square_env
           (mkState [square_routeR] 1 (IncRoute square_routeL))
           (mkState [] 1 (IncRoute square_routeL)) square_routeL).
  - left. reflexivity.
  - eapply rtc_l; [|apply rtc_refl].
    constructor; [discriminate | simpl; lia | exact square_third_iteration].
  - reflexivity.
  - reflexivity.
Defined.

Lemma X6_witness :
  exists inc',
    incumbent (mkState [] 1 (IncRoute square_routeL)) = IncRoute inc' /\
    flt (active_cost square_env square_routeL) (active_cost square_env inc') = false.
Proof.
  apply (X6_best_of_examined ExactFacts.exact_order exact_ge square_env
           (mkState [square_routeL; square_routeR] 0 IncInf)
           (mkState [square_routeR] 1 (IncRoute square_routeL))
           (mkState [] 1 (IncRoute square_routeL))
           square_routeL [square_routeR]).
  - left. reflexivity.
  - left. reflexivity.
  - vm_compute. reflexivity.
  - exact square_routeL_feasible.
  - constructor; [discriminate | simpl; lia | exact square_second_iteration].
  - eapply rtc_l; [|apply rtc_refl].
    constructor; [discriminate | simpl; lia | exact square_third_iteration].
Defined.

Lemma X8_witness :
  exists st' inc,
    search (S (length [direct free_env; stale])) free_env
      (mkState [direct free_env; stale] 0 IncInf) = Done st' /\
    active st' = [] /\ incflag st' = 1%Z /\
    incumbent st' = IncRoute inc /\ inc ∈ [direct free_env; stale].
Proof.
  apply (@X8_all_feasible_terminates carrier tools ExactFacts.exact_contract
           free_env [direct free_env; stale]).
  - discriminate.
  - simpl. lia.
  - intros r _. constructor.
Defined.

Lemma X9_witness :
  det_path_planning 7 [] 0 0 30000 400 0 (1 # 6) [] = Raise IndexError /\
  det_path_planning 7 [] 0 0 30000 0 0 (1 # 6) [] = Raise ZeroDivisionError.
Proof.
  split.
  - apply (@call_after_return carrier tools 10%nat 7%nat [slot]
             0 0 30000 400 0 (5 # 3) [square_ll]
             0 0 30000 400 0 (1 # 6) []
             [(0, 0); (-1 # 6, 2 # 3); (-1 # 6, 1); (0, 5 # 3)]%Q []).
    vm_compute. reflexivity.
  - apply (@call_after_return carrier tools 10%nat 7%nat [slot]
             0 0 30000 400 0 (5 # 3) [square_ll]
             0 0 30000 0 0 (1 # 6) []
             [(0, 0); (-1 # 6, 2 # 3); (-1 # 6, 1); (0, 5 # 3)]%Q []).
    vm_compute. reflexivity.
Defined.

End ExtraFacts.

(** * The reward of the descend environment *)

Module DescendFacts.
Import Descend.
Local Open Scope float_scope.

Lemma zero_sf : Prim2SF 0 = S754_zero false.
Proof. reflexivity. Qed.

Lemma pos_spec (x : float) :
  (0 <? x) = match classify x with FPos => true | _ => false end.
Proof.
  rewrite FloatAxioms.ltb_spec, zero_sf. unfold classify.
  destruct (Prim2SF x) as [[]|[]| |[] m e]; reflexivity.
Qed.

Lemma nonpos_spec (x : float) :
  (x <=? 0) = match classify x with FNeg | FZero => true | _ => false end.
Proof.
  rewrite FloatAxioms.leb_spec, zero_sf. unfold classify.
  destruct (Prim2SF x) as [[]|[]| |[] m e]; reflexivity.
Qed.

Lemma nan_spec (x : float) :
  is_nan x = match classify x with FNan => true | _ => false end.
Proof.
  unfold is_nan. rewrite FloatAxioms.eqb_spec. unfold classify, SFeqb.
  destruct (Prim2SF x) as [[]|[]| |[] m e]; try reflexivity; simpl.
  all: rewrite Z.compare_refl, ?Pos.compare_cont_refl, ?Pos.compare_refl; reflexivity.
Qed.

(** Rounding keeps the sign it is given. *)
Lemma round_sign (s : bool) (m e : Z) (l : location) :
  match binary_round_aux prec emax s m e l with
  | S754_nan => True
  | S754_zero s' | S754_infinity s' | S754_finite s' _ _ => s' = s
  end.
Proof.
  unfold binary_round_aux.
  destruct (shr_fexp prec emax m e l) as [mrs' e'].
  destruct (shr_fexp prec emax _ e' loc_Exact) as [mrs2 e2].
  destruct (shr_m mrs2); [reflexivity | | exact I].
  destruct (Z.leb e2 (emax - prec)); reflexivity.
Qed.

Lemma mul_negsign (a y : spec_float) :
  finite_with_sign true y = true -> negsign (SF64mul (SFabs a) y).
Proof.
  destruct y as [| | |[] my ey]; try discriminate. intros _.
  destruct a as [s|s| |s ma ea]; simpl; try reflexivity.
  pose proof (round_sign true (Z.pos (ma * my)) (ea + ey) loc_Exact) as Hr.
  unfold SF64mul, SFmul. simpl.
  destruct (binary_round_aux prec emax true (Z.pos (ma * my)) (ea + ey) loc_Exact);
    simpl; auto.
Qed.

Lemma div_negsign (z y : spec_float) :
  finite_with_sign false y = true -> negsign z -> negsign (SF64div z y).
Proof.
  destruct y as [| | |[] my ey]; try discriminate. intros _.
  destruct z as [s|s| |s mz ez]; simpl; try (intros ->; reflexivity); [exact id|].
  intros ->. unfold SF64div, SFdiv. simpl xorb.
  destruct (SFdiv_core_binary prec emax (Z.pos mz) ez (Z.pos my) ey) as [[q eq] lq].
  pose proof (round_sign true q eq lq) as Hr.
  destruct (binary_round_aux prec emax true q eq lq); simpl; auto.
Qed.

Lemma negsign_nonpos (x : float) :
  negsign (Prim2SF x) -> is_nan x = true \/ (x <=? 0) = true.
Proof.
  rewrite nan_spec, nonpos_spec. unfold classify, negsign.
  destruct (Prim2SF x) as [s|s| |s m e]; auto; intros ->; auto.
Qed.

(** A penalty [abs(d) * c / k] with [c] negative and [k] positive is NaN,
    zero or negative. *)
Lemma penalty_nonpos (d c k : float) :
  finite_with_sign true (Prim2SF c) = true ->
  finite_with_sign false (Prim2SF k) = true ->
  is_nan (abs d * c / k) = true \/ (abs d * c / k <=? 0) = true.
Proof.
  intros Hc Hk. apply negsign_nonpos.
  rewrite div_spec, mul_spec, abs_spec.
  apply div_negsign; [exact Hk|]. apply mul_negsign, Hc.
Qed.

(** X10 -- ground contact comes first.  With the altitude at or below
    zero the reward is -100 and the episode terminates, whatever the
    distance to the runway and the target altitude are (NaN included). *)
Theorem X10_ground_contact_first (self : DescendEnv) :
  (altitude self <=? 0) = true ->
  _get_reward self = Some (-100, 1%Z).
Proof.
  intros Hle. unfold _get_reward. rewrite Hle.
  rewrite nonpos_spec in Hle. rewrite (pos_spec (altitude self)).
  destruct (classify (altitude self)); try discriminate;
    rewrite Bool.andb_false_r; reflexivity.
Qed.

(** X11 -- when the episode terminates.  With altitude and runway distance
    other than NaN the method returns a pair; its flag is 0 or 1, and it is
    1 exactly when the altitude or the runway distance is at or below
    zero. *)
Theorem X11_termination_flag (self : DescendEnv) :
  is_nan (altitude self) = false ->
  is_nan (runway_distance self) = false ->
  exists r t,
    _get_reward self = Some (r, t) /\
    (t = 0%Z \/ t = 1%Z) /\
    (t = 1%Z <->
     (altitude self <=? 0) || (runway_distance self <=? 0) = true).
Proof.
  unfold _get_reward.
  rewrite !nan_spec, !pos_spec, !nonpos_spec.
  destruct (classify (altitude self)), (classify (runway_distance self));
    simpl; intros Ha Hr; try discriminate;
    eexists; eexists; (split; [reflexivity|]); split; auto;
    split; intros Ht; try reflexivity; discriminate.
Qed.

(** X12 -- when nothing is returned.  The method falls off its end, so
    that the unpacking in [step] fails, exactly when the altitude or the
    runway distance is NaN and neither of them is at or below zero. *)
Theorem X12_no_reward_iff_nan (self : DescendEnv) :
  _get_reward self = None <->
  (is_nan (altitude self) || is_nan (runway_distance self))
  && negb (altitude self <=? 0) && negb (runway_distance self <=? 0) = true.
Proof.
  unfold _get_reward.
  rewrite !nan_spec, !pos_spec, !nonpos_spec.
  destruct (classify (altitude self)), (classify (runway_distance self));
    simpl; split; intros Hn; try reflexivity; discriminate.
Qed.

(** X13 -- the reward is a penalty.  A returned reward is never positive:
    it is at or below zero, or NaN. *)
Theorem X13_reward_never_positive (self : DescendEnv) (r : float) (t : Z) :
  _get_reward self = Some (r, t) ->
  is_nan r = true \/ (r <=? 0) = true.
Proof.
  unfold _get_reward.
  destruct ((0 <? runway_distance self) && (0 <? altitude self))%bool.
  { intros Hr. injection Hr as <- _. apply penalty_nonpos; reflexivity. }
  destruct (altitude self <=? 0).
  { intros Hr. injection Hr as <- _. right. reflexivity. }
  destruct (runway_distance self <=? 0); [|discriminate].
  intros Hr. injection Hr as <- _. apply penalty_nonpos; reflexivity.
Qed.

Lemma X10_witness :
  (altitude (mkDescendEnv (-3) 40 2500) <=? 0) = true /\
  _get_reward (mkDescendEnv (-3) 40 2500) = Some (-100, 1%Z).
Proof.
  split; [reflexivity|].
  apply (X10_ground_contact_first (mkDescendEnv (-3) 40 2500)). reflexivity.
Defined.

Lemma X11_witness :
  exists r t,
    _get_reward (mkDescendEnv 1200 (-0.5) 2500) = Some (r, t) /\
    (t = 0%Z \/ t = 1%Z) /\
    (t = 1%Z <->
     (altitude (mkDescendEnv 1200 (-0.5) 2500) <=? 0)
     || (runway_distance (mkDescendEnv 1200 (-0.5) 2500) <=? 0) = true).
Proof.
  apply (X11_termination_flag (mkDescendEnv 1200 (-0.5) 2500)); reflexivity.
Defined.

Lemma X12_witness :
  _get_reward (mkDescendEnv 1200 nan 2500) = None.
Proof.
  apply (proj2 (X12_no_reward_iff_nan (mkDescendEnv 1200 nan 2500))). reflexivity.
Defined.

Lemma X13_witness :
  is_nan (abs (2500 - 1200) * -5 / 3000) = true \/
  (abs (2500 - 1200) * -5 / 3000 <=? 0) = true.
Proof.
  apply (X13_reward_never_positive (mkDescendEnv 1200 40 2500) _ 0%Z). reflexivity.
Defined.

End DescendFacts.
